(** * imago/helpers.py: field projection and the public endpoints

    A shallow embedding of [get_fields] (with its inner [fwrap]),
    [cachebusterable], [PublicListEndpoint] and [PublicDetailEndpoint],
    followed by the properties established about them.

    Python objects have identity, and [fwrap] keys its memo on [id(obj)];
    serialize specs may share or reference themselves.  The spec tree is
    therefore kept in a store of objects indexed by address, and the
    values built while projecting are trees whose leaves point back into
    that store. *)

From Stdlib Require Import ZArith Ascii.
From stdpp Require Import gmap strings list.

#[local] Set Warnings "-register-all,-clear-no-such-hyp".


(** ** Python data *)

(** A Python [str] is a [string] whose characters are its code points,
    which are taken to lie below 256. *)

Definition addr := nat.

(** A reference held inside a stored object: the [None] singleton or the
    address of another stored object. *)
Inductive ref :=
  | RNone
  | RObj (a : addr).

(** The objects a serialize spec is made of.  Dicts keep their entries in
    insertion order, as Python dicts do (keys are unique). *)
Inductive pyobj :=
  | PBool (b : bool)
  | PInt (z : Z)
  | PStr (s : string)
  | PList (items : list ref)
  | PDict (items : list (string * ref))
  | POpaque.

Abbreviation store := (gmap addr pyobj).

(** Values handled by [get_fields]: [None], an object of the store (by
    identity), or a structure created during the call: a list of
    [(name, value)] tuples or a dict. *)
Inductive value :=
  | VNone
  | VObj (a : addr)
  | VPairs (items : list (string * value))
  | VDict (items : list (string * value)).

Abbreviation dict := (list (string * value)).

Definition deref (r : ref) : value :=
  match r with
  | RNone => VNone
  | RObj a => VObj a
  end.

(** ** Exceptions and outcomes *)

Inductive exn :=
  | FieldKeyError (field : string)
  | KeyError (key : string)
  | TypeError
  | ValueError
  | EmptyPage
  | DoesNotExist
  | HttpError (code : Z) (message : string).

Inductive outcome (A : Type) :=
  | Ok (a : A)
  | Raise (e : exn)
  | OutOfFuel.

Arguments Ok {A} a.
Arguments Raise {A} e.
Arguments OutOfFuel {A}.

#[export] Instance outcome_bind : MBind outcome := λ A B k m,
  match m with
  | Ok a => k a
  | Raise e => Raise e
  | OutOfFuel => OutOfFuel
  end.

#[export] Instance outcome_ret : MRet outcome := λ A a, Ok a.

(** ** Insertion-ordered dicts *)

Fixpoint dict_get {V} (k : string) (d : list (string * V)) : option V :=
  match d with
  | [] => None
  | (k', v) :: d' => if String.eqb k' k then Some v else dict_get k d'
  end.

(** [d[k] = v]: an existing key keeps its position, a new key goes last. *)
Fixpoint dict_set {V} (k : string) (v : V) (d : list (string * V))
  : list (string * V) :=
  match d with
  | [] => [(k, v)]
  | (k', v') :: d' =>
      if String.eqb k' k then (k, v) :: d' else (k', v') :: dict_set k v d'
  end.

Definition is_nil {A} (l : list A) : bool :=
  match l with
  | [] => true
  | _ => false
  end.

Definition is_none (v : value) : bool :=
  match v with
  | VNone => true
  | _ => false
  end.

Fixpoint vdepth (v : value) : nat :=
  match v with
  | VNone | VObj _ => 0
  | VPairs l | VDict l =>
      S ((fix go (l : dict) : nat :=
            match l with
            | [] => 0
            | (_, x) :: l' => Nat.max (vdepth x) (go l')
            end) l)
  end.

(** ** String helpers *)

(** [field.split(".", 1)] when ['.' in field]; [None] when the field has
    no dot. *)
Fixpoint split_dot (s : string) : option (string * string) :=
  match s with
  | EmptyString => None
  | String c s' =>
      if Ascii.eqb c "."%char then Some (EmptyString, s')
      else match split_dot s' with
           | Some (p, q) => Some (String c p, q)
           | None => None
           end
  end.

(** ["%s.%s" % (key, field)] and ["%s__%s" % (key, x)]. *)
Definition dotted (key field : string) : string := key +:+ "." +:+ field.
Definition dunder (key x : string) : string := key +:+ "__" +:+ x.

Section Projector.
Context (h : store).

(** The entries of [obj] when [isinstance(obj, dict)]. *)
Definition as_dict (obj : value) : option dict :=
  match obj with
  | VDict d => Some d
  | VObj a =>
      match h !! a with
      | Some (PDict d) => Some (prod_map id deref <$> d)
      | _ => None
      end
  | _ => None
  end.

(** Python truth value. An address outside the store stands for an
    object of no modelled type, which is truthy like [POpaque]. *)
Definition truthy (v : value) : bool :=
  match v with
  | VNone => false
  | VPairs l => negb (is_nil l)
  | VDict d => negb (is_nil d)
  | VObj a =>
      match h !! a with
      | Some (PBool b) => b
      | Some (PInt z) => negb (z =? 0)%Z
      | Some (PStr s) => negb (String.eqb s EmptyString)
      | Some (PList l) => negb (is_nil l)
      | Some (PDict d) => negb (is_nil d)
      | Some POpaque | None => true
      end
  end.

(** [obj.get(k)], whose default is [None]. *)
Definition dict_get_default (k : string) (d : dict) : value :=
  default VNone (dict_get k d).

(** [root[x]]: [KeyError(x)] on a dict without [x]; subscripting
    anything else with a string is a [TypeError]. *)
Definition getitem (root : value) (x : string) : outcome value :=
  match as_dict root with
  | Some d =>
      match dict_get x d with
      | Some v => Ok v
      | None => Raise (KeyError x)
      end
  | None => Raise TypeError
  end.

(** *** fwrap

    [memo] holds the [id]s of visited objects.  Only store addresses
    are recorded: [None] comes back as [None] whether or not its id is
    in [memo], and a structure created during the call is referenced
    from one place only, so its id is never found again. *)
Definition id_in (obj : value) (memo : gset addr) : bool :=
  match obj with
  | VObj a => bool_decide (a ∈ memo)
  | _ => false
  end.

Definition memo_add (obj : value) (memo : gset addr) : gset addr :=
  match obj with
  | VObj a => {[a]} ∪ memo
  | _ => memo
  end.

(** [[(x, fwrap(y, memo=memo)) for x, y in obj.items()]], the memo
    being shared by all the calls. *)
Fixpoint fwrap_items
    (f : value → gset addr → outcome (value * gset addr))
    (items : dict) (memo : gset addr) : outcome (dict * gset addr) :=
  match items with
  | [] => Ok ([], memo)
  | (x, y) :: rest =>
      '(v, memo) ← f y memo;
      '(vs, memo) ← fwrap_items f rest memo;
      Ok ((x, v) :: vs, memo)
  end.

Fixpoint fwrap_aux (fuel : nat) (obj : value) (memo : gset addr)
  : outcome (value * gset addr) :=
  match fuel with
  | 0 => OutOfFuel
  | S n =>
      if id_in obj memo then Ok (VNone, memo)
      else
        let memo := memo_add obj memo in
        match as_dict obj with
        | Some d =>
            if is_nil d || truthy (dict_get_default "fields" d)
            then Ok (obj, memo)
            else
              '(l, memo) ← fwrap_items (fwrap_aux n) d memo;
              let l := List.filter (λ x, negb (is_none x.2)) l in
              if is_nil l then Ok (VNone, memo)
              else Ok (VDict [("fields", VPairs l)], memo)
        | None => Ok (obj, memo)
        end
  end.

(** Recursion depth is bounded by the nesting of [obj] plus the number
    of stored objects, each of which is entered at most once. *)
Definition fwrap_fuel (obj : value) : nat := S (vdepth obj + size (dom h)).

(** [fwrap(obj)] with [memo=None]. *)
Definition fwrap (obj : value) : outcome value :=
  '(v, _) ← fwrap_aux (fwrap_fuel obj) obj ∅; Ok v.

(** *** get_fields *)

(** [subfields[prefix].append(postfix)] on a [defaultdict(list)]. *)
Fixpoint group_add (prefix postfix : string)
    (g : list (string * list string)) : list (string * list string) :=
  match g with
  | [] => [(prefix, [postfix])]
  | (k, ps) :: g' =>
      if String.eqb k prefix then (k, (ps ++ [postfix])) :: g'
      else (k, ps) :: group_add prefix postfix g'
  end.

Definition classify (acc : list string * list (string * list string))
    (field : string) : list string * list (string * list string) :=
  match split_dot field with
  | None => ((acc.1 ++ [field]), acc.2)
  | Some (prefix, postfix) => (acc.1, group_add prefix postfix acc.2)
  end.

(** The first loop: [(concrete, subfields)]. *)
Definition partition_fields (fields : list string)
  : list string * list (string * list string) :=
  fold_left classify fields ([], []).

(** [{x: fwrap(root[x]) for x in concrete}]. *)
Fixpoint build_concrete (root : value) (concrete : list string)
    (ret : dict) : outcome dict :=
  match concrete with
  | [] => Ok ret
  | x :: xs =>
      y ← getitem root x;
      v ← fwrap y;
      build_concrete root xs (dict_set x v ret)
  end.

(** [except KeyError as e]: raise [FieldKeyError] with the arguments of
    [e], that is, with the missing key. *)
Definition as_field_key_error {A} (m : outcome A) : outcome A :=
  match m with
  | Raise (KeyError k) => Raise (FieldKeyError k)
  | _ => m
  end.

(** [except FieldKeyError as e: e.field = "%s.%s" % (key, e.field);
    raise e]. *)
Definition requalify {A} (key : string) (m : outcome A) : outcome A :=
  match m with
  | Raise (FieldKeyError f) => Raise (FieldKeyError (dotted key f))
  | _ => m
  end.

(** [for key, fields in subfields.items(): ...]. *)
Fixpoint subfields_loop
    (rec : value → list string → outcome (gset string * value))
    (root : value) (groups : list (string * list string))
    (prefetch : gset string) (ret : dict)
  : outcome (gset string * dict) :=
  match groups with
  | [] => Ok (prefetch, ret)
  | (key, fields) :: rest =>
      let prefetch := {[key]} ∪ prefetch in
      '(_prefetch, v) ←
        requalify key (node ← getitem root key; rec node fields);
      let ret := dict_set key v ret in
      let prefetch := prefetch ∪ set_map (dunder key) _prefetch in
      subfields_loop rec root rest prefetch ret
  end.

(** Everything before the final [fwrap(ret)]: the prefetch set and the
    merged mapping [ret]. *)
Definition get_fields_merged
    (rec : value → list string → outcome (gset string * value))
    (root : value) (fields : list string) : outcome (gset string * dict) :=
  let '(concrete, subfields) := partition_fields fields in
  ret ← as_field_key_error (build_concrete root concrete []);
  subfields_loop rec root subfields ∅ ret.

Definition get_fields_step
    (rec : value → list string → outcome (gset string * value))
    (root : value) (fields : list string) : outcome (gset string * value) :=
  '(prefetch, ret) ← get_fields_merged rec root fields;
  v ← fwrap (VDict ret);
  Ok (prefetch, v).

Fixpoint get_fields_aux (fuel : nat) (root : value) (fields : list string)
  : outcome (gset string * value) :=
  match fuel with
  | 0 => OutOfFuel
  | S n => get_fields_step (get_fields_aux n) root fields
  end.

(** Each recursive call receives strictly shorter strings. *)
Definition fields_fuel (fields : list string) : nat :=
  S (list_max (String.length <$> fields)).

Definition get_fields (root : value) (fields : list string)
  : outcome (gset string * value) :=
  get_fields_aux (fields_fuel fields) root fields.

End Projector.

(** ** Auxiliary notions used in the statements *)

(** A name without a dot. *)
Definition nodot (s : string) : Prop := split_dot s = None.

(** Every group is non-empty and holds strings shorter than [M]. *)
Definition groups_bound (M : nat) (g : list (string * list string)) : Prop :=
  Forall (λ kr, kr.2 ≠ [] ∧ Forall (λ p, String.length p < M) kr.2) g.

(** Follow [segs] from [root] by successive subscripts. *)
Fixpoint walk (h : store) (root : value) (segs : list string) : option value :=
  match segs with
  | [] => Some root
  | s :: segs' =>
      match getitem h root s with
      | Ok node => walk h node segs'
      | _ => None
      end
  end.

(** The dotted spelling of the path [segs ++ [k]]. *)
Definition dotted_path (segs : list string) (k : string) : string :=
  foldr dotted k segs.



(** ** Example spec trees *)

(** [root = {"a": {"b": True, "c": False}, "name": {}, "self": root,
    "nothing": None}]: a relation, an empty leaf, a reference back to
    the root itself and an entry holding [None]. *)
Definition ex_store : store :=
  list_to_map
    [ (0, PDict [("a", RObj 1); ("name", RObj 4); ("self", RObj 0);
                 ("nothing", RNone)]);
      (1, PDict [("b", RObj 2); ("c", RObj 3)]);
      (2, PBool true);
      (3, PBool false);
      (4, PDict []) ].

(** What one group of compound fields adds to the prefetch set, [sub]
    being the prefetch set of the recursive call: the prefix itself and
    [prefix__x] for every [x] of [sub]. *)
Definition group_prefetch (kr : string * list string) (sub : gset string)
  : gset string :=
  {[kr.1]} ∪ set_map (dunder kr.1) sub.

(** The prefetch set in the words of the specification, as a function of
    the requested fields alone: start empty; for each prefix group add the
    prefix itself, then [prefix__x] for every [x] of the set obtained in
    the same way from the group's remainders.  Concrete fields add
    nothing. *)
Fixpoint prefetch_paths (fuel : nat) (fields : list string) : gset string :=
  match fuel with
  | 0 => ∅
  | S n =>
      ⋃ ((λ kr, group_prefetch kr (prefetch_paths n kr.2))
           <$> (partition_fields fields).2)
  end.

(** [sub] is the prefetch set returned by the recursive call made for the
    group [kr]. *)
Definition recursive_prefetch (h : store) (root : value)
    (kr : string * list string) (sub : gset string) : Prop :=
  ∃ node v, getitem h root kr.1 = Ok node
            ∧ get_fields h node kr.2 = Ok (sub, v).


(** ** The final wrap in closed form *)

Section FinalWrap.
Context (h : store).

(** [fwrap] hands [v] back as it is (or [None] when its id is in the
    memo): [v] is not a dict, or it is an empty dict or one with a truthy
    ["fields"] entry. *)
Definition passes (v : value) : bool :=
  match as_dict h v with
  | Some d => is_nil d || truthy h (dict_get_default "fields" d)
  | None => true
  end.

(** The list comprehension of [fwrap] over entries that all pass: an
    entry becomes [None] when its object was met before. *)
Fixpoint revisit (items : dict) (memo : gset addr) : dict * gset addr :=
  match items with
  | [] => ([], memo)
  | (k, v) :: rest =>
      let '(vs, memo') := revisit rest (memo_add v memo) in
      ((k, if id_in v memo then VNone else v) :: vs, memo')
  end.

(** [fwrap(ret)] for a merged mapping whose values all pass. *)
Definition final_wrap (ret : dict) : value :=
  if is_nil ret || truthy h (dict_get_default "fields" ret) then VDict ret
  else
    let l := List.filter (λ x, negb (is_none x.2)) (revisit ret ∅).1 in
    if is_nil l then VNone else VDict [("fields", VPairs l)].

End FinalWrap.

(** ** Specs equal up to the order of their entries *)



(** [root = {"fields": True, "name": {}}]: a spec with a field that is
    itself called ["fields"]. *)
Definition ex_fields_store : store :=
  list_to_map
    [ (0, PDict [("fields", RObj 1); ("name", RObj 2)]);
      (1, PBool true);
      (2, PDict []) ].

(** [root = {"x": None, "r": {"y": None}, "a": {"b": None}}]: every
    value normalizes to nothing. *)
Definition ex_empty_store : store :=
  list_to_map
    [ (0, PDict [("x", RNone); ("r", RObj 1); ("a", RObj 2)]);
      (1, PDict [("y", RNone)]);
      (2, PDict [("b", RNone)]) ].

(** [root = {"a": {"b": True, "c": True}}], both entries holding the one
    [True] object. *)
Definition ex_shared_store : store :=
  list_to_map
    [ (0, PDict [("a", RObj 1)]);
      (1, PDict [("b", RObj 2); ("c", RObj 2)]);
      (2, PBool true) ].

(** ** Request parameters *)

(** [request.params]: the query string as a dict from names to values.
    The handlers only look keys up and pop them, so the order of the
    entries plays no role. *)
Abbreviation params := (gmap string string).

(** [s.split(",")]. *)
Fixpoint split_comma (s : string) : list string :=
  match s with
  | EmptyString => [EmptyString]
  | String c s' =>
      if Ascii.eqb c ","%char then EmptyString :: split_comma s'
      else match split_comma s' with
           | x :: xs => String c x :: xs
           | [] => [String c EmptyString]
           end
  end.

(** [c in s], for the quote characters. *)
Fixpoint has_quote (c : ascii) (s : string) : bool :=
  match s with
  | EmptyString => false
  | String c' s' => Ascii.eqb c' c || has_quote c s'
  end.

Definition digit_of (c : ascii) : option Z :=
  let n := nat_of_ascii c in
  if (48 <=? n) && (n <=? 57) then Some (Z.of_nat (n - 48)) else None.

(** The characters [int] takes for blanks, among the code points below
    256: tab to carriage return, the space, [0x85] and the no-break
    space [0xa0].  (The separators [0x1c]-[0x1f], blanks for
    [str.strip], are not blanks for [int].) *)
Definition is_space (c : ascii) : bool :=
  let n := nat_of_ascii c in
  (9 <=? n) && (n <=? 13) || (n =? 32) || (n =? 133) || (n =? 160).

Fixpoint lstrip (s : string) : string :=
  match s with
  | EmptyString => EmptyString
  | String c s' => if is_space c then lstrip s' else s
  end.

Fixpoint all_space (s : string) : bool :=
  match s with
  | EmptyString => true
  | String c s' => is_space c && all_space s'
  end.

(** The digits of a numeral, then trailing blanks to the end of the
    string: a single underscore may stand between two digits;
    [after_digit] says that the previous character was a digit. *)
Fixpoint numeral (s : string) (acc : Z) (after_digit : bool) : option Z :=
  match s with
  | EmptyString => if after_digit then Some acc else None
  | String c s' =>
      match digit_of c with
      | Some d => numeral s' (10 * acc + d)%Z true
      | None =>
          if Ascii.eqb c "_"%char
          then (if after_digit then numeral s' acc false else None)
          else if is_space c && after_digit && all_space s'
          then Some acc
          else None
      end
  end.

Fixpoint count_digits (s : string) : Z :=
  match s with
  | EmptyString => 0
  | String c s' =>
      (match digit_of c with Some _ => 1 | None => 0 end) + count_digits s'
  end%Z.

(** [sys.int_info.default_max_str_digits]: the longest numeral, counted
    in digits, that [int] converts unless the interpreter is configured
    otherwise. *)
Definition max_str_digits : Z := 4300.

(** [int(s)] for a [str]: blanks around, an optional sign, decimal
    digits with single underscores between them, and no more digits
    than [max_str_digits]; [None] stands for the [ValueError] raised on
    anything else.  Below 256 the only characters with a decimal value
    are [0]-[9]: the superscript digits are refused. *)
Definition py_int (s : string) : option Z :=
  if (max_str_digits <? count_digits s)%Z then None else
  match lstrip s with
  | EmptyString => None
  | String c s' =>
      if Ascii.eqb c "-"%char then Z.opp <$> numeral s' 0 false
      else if Ascii.eqb c "+"%char then numeral s' 0 false
      else numeral (String c s') 0 false
  end.

Definition backslash : ascii := ascii_of_nat 92.
Definition single_quote : ascii := ascii_of_nat 39.
Definition double_quote : ascii := ascii_of_nat 34.

Definition hex_digit (n : nat) : ascii :=
  ascii_of_nat (if n <? 10 then 48 + n else 87 + n).

(** [str.isprintable] on a code point below 256. *)
Definition printable (n : nat) : bool :=
  (32 <=? n) && (n <? 127) || (161 <=? n) && negb (n =? 173).

(** One character of [repr(k)], [quote] being the quote chosen for the
    whole string. *)
Definition repr_char (quote c : ascii) : string :=
  let n := nat_of_ascii c in
  if Ascii.eqb c quote || Ascii.eqb c backslash
  then String backslash (String c EmptyString)
  else if n =? 9 then String backslash "t"
  else if n =? 10 then String backslash "n"
  else if n =? 13 then String backslash "r"
  else if printable n then String c EmptyString
  else String backslash
         (String "x" (String (hex_digit (n / 16))
                        (String (hex_digit (n mod 16)) EmptyString))).

Fixpoint repr_chars (quote : ascii) (s : string) : string :=
  match s with
  | EmptyString => EmptyString
  | String c s' => repr_char quote c +:+ repr_chars quote s'
  end.

(** [repr(k)] for a [str]: between single quotes, or between double
    quotes when [k] holds a single quote and no double quote; the quote
    and the backslash are escaped, as are the characters that are not
    printable. *)
Definition py_repr (k : string) : string :=
  let quote :=
    if has_quote single_quote k && negb (has_quote double_quote k)
    then double_quote else single_quote in
  String quote (repr_chars quote k +:+ String quote EmptyString).

(** [str(e)] for a [KeyError] whose only argument is the string [k]:
    [repr(k)]. *)
Definition key_error_str (k : string) : string := py_repr k.

(** [cachebusterable]: drop ["_"] from the parameters, then run [fn]. *)
Definition cachebusterable {A} (fn : params → A) (request : params) : A :=
  fn (delete "_" request).

(** ** Paginator *)

(** Modelled from the spec: Django's [Paginator] and [EmptyPage] are
    imported from [django.core.paginator], which is not part of this
    repository.  The data source "paginat[es] returning a bounded page
    plus an end-index" and "raises an empty page condition when the page
    number exceeds available pages"; the details follow Django's
    [Paginator] with its defaults (no orphans, an empty first page is
    allowed).  [per_page] is taken to be positive. *)
Record page (Row : Type) := Page {
  object_list : list Row;
  number : Z;
  page_count : nat;
  page_per_page : nat
}.

Arguments Page {Row}.
Arguments object_list {Row}.
Arguments number {Row}.
Arguments page_count {Row}.
Arguments page_per_page {Row}.

(** Modelled from the spec: [Paginator.num_pages], absent from this
    repository; the number of pages "available", at least one. *)
Definition num_pages (count per_page : nat) : nat :=
  let hits := Nat.max 1 count in
  (hits + per_page - 1) / per_page.

(** Modelled from the spec: [Paginator.page], absent from this
    repository; "a bounded page", or the "empty page" condition when the
    page number is below one or "exceeds available pages". *)
Definition paginator_page {Row} (data : list Row) (per_page : nat)
    (number : Z) : outcome (page Row) :=
  let count := length data in
  if (number <? 1)%Z then Raise EmptyPage
  else if (Z.of_nat (num_pages count per_page) <? number)%Z
  then Raise EmptyPage
  else
    let bottom := (Z.to_nat number - 1) * per_page in
    let top := bottom + per_page in
    let top := if count <=? top then count else top in
    Ok (Page (take (top - bottom) (drop bottom data)) number count per_page).

(** Modelled from the spec: [Page.end_index], absent from this
    repository; the "index of the last item on the page (relative to the
    full unpaginated result, not the page)". *)
Definition end_index {Row} (p : page Row) : nat :=
  if (number p =? Z.of_nat (num_pages (page_count p) (page_per_page p)))%Z
  then page_count p
  else Z.to_nat (number p) * page_per_page p.

(** ** The endpoints *)

Record meta := Meta {
  meta_count : nat;
  meta_page : Z;
  meta_per_page : nat;
  meta_max_page : nat;
  meta_total_count : nat
}.

Record list_body (J : Type) := ListBody {
  body_meta : meta;
  body_results : list J
}.

Arguments ListBody {J}.
Arguments body_meta {J}.
Arguments body_results {J}.

(** [Http200(body)] with the one header the handlers set. *)
Record http200 (B : Type) := Http200 {
  body : B;
  access_control_allow_origin : string
}.

Arguments Http200 {B}.
Arguments body {B}.
Arguments access_control_allow_origin {B}.

Definition no_such_page : string :=
  "No such page (heh, literally - its out of bounds)".

Definition invalid_field_path (field : string) : string :=
  "Error: You've asked for a field (" +:+ field +:+
  ") that is invalid. Check the docs for this model.".

Definition invalid_field (e : string) : string :=
  "Error: Invalid field: " +:+ e.

Section Endpoints.
(** The collaborators: rows of the model, their serialized form, the
    ORM's [filter] and [order_by], lookup by primary key, and restless'
    [serialize]; each of them may raise.  A query set is represented by
    the list of rows it evaluates to. *)
Context {Row J : Type}.
Context (qs_filter : params → list Row → outcome (list Row)).
Context (qs_order_by : list string → list Row → outcome (list Row)).
Context (qs_get : string → list Row → outcome Row).
Context (serialize : Row → dict → outcome J).

(** The class attributes a concrete view sets. *)
Record endpoint := Endpoint {
  objects : list Row;
  per_page : nat;
  spec_store : store;
  serialize_config : value;
  default_fields : list string
}.

(** [prefetch_related] changes how related rows are loaded, not which
    rows the query set holds. *)
Definition prefetch_related (related : gset string) (data : list Row)
  : list Row := data.

(** [serialize(x, **config)]: only a mapping can be unpacked. *)
Definition serialize_with (h : store) (config : value) (x : Row)
  : outcome J :=
  match as_dict h config with
  | Some kwargs => serialize x kwargs
  | None => Raise TypeError
  end.

Fixpoint serialize_all (h : store) (config : value) (rows : list Row)
  : outcome (list J) :=
  match rows with
  | [] => Ok []
  | x :: rows' =>
      j ← serialize_with h config x;
      js ← serialize_all h config rows';
      Ok (j :: js)
  end.

(** [params.pop(key)] when [key in params]. *)
Definition pop_param (key : string) (ps : params)
  : option string * params :=
  (ps !! key, delete key ps).

Definition adjust_filters (ps : params) : params := ps.

(** [self.filter(data, **params)]: a parameter called [self] or [data]
    clashes with the positional arguments of the method, a [TypeError]. *)
Definition filter_data (data : list Row) (kwargs : params)
  : outcome (list Row) :=
  if bool_decide (is_Some (kwargs !! "self"))
     || bool_decide (is_Some (kwargs !! "data"))
  then Raise TypeError
  else qs_filter (adjust_filters kwargs) data.

Definition sort_data (data : list Row) (sort_by : list string)
  : outcome (list Row) :=
  qs_order_by sort_by data.

Definition paginate (self : endpoint) (data : list Row) (number : Z)
  : outcome (page Row) :=
  paginator_page data (per_page self) number.

(** The parameters handed to [self.filter] by the list view: what is
    left after popping [page], [sort_by] and [fields]. *)
Definition filter_kwargs (ps : params) : params :=
  delete "fields" (delete "sort_by" (delete "page" ps)).

(** [PublicListEndpoint.get] before decoration. *)
Definition list_get_raw (self : endpoint) (request : params)
  : outcome (http200 (list_body J)) :=
  let ps := request in
  let '(page_param, ps) := pop_param "page" ps in
  page ← match page_param with
         | None => Ok 1%Z
         | Some s =>
             match py_int s with
             | Some z => Ok z
             | None => Raise ValueError
             end
         end;
  let '(sort_param, ps) := pop_param "sort_by" ps in
  let sort_by := from_option split_comma [] sort_param in
  let '(fields_param, ps) := pop_param "fields" ps in
  let fields := from_option split_comma (default_fields self) fields_param in
  let data := objects self in
  data ← filter_data data ps;
  data ← sort_data data sort_by;
  data_page ← match paginate self data page with
              | Raise EmptyPage => Raise (HttpError 404 no_such_page)
              | r => r
              end;
  '(related, config) ←
    match get_fields (spec_store self) (serialize_config self) fields with
    | Raise (FieldKeyError field) =>
        Raise (HttpError 400 (invalid_field_path field))
    | Raise (KeyError k) =>
        Raise (HttpError 400 (invalid_field (key_error_str k)))
    | r => r
    end;
  let data := prefetch_related related data in
  results ← serialize_all (spec_store self) config (object_list data_page);
  Ok (Http200
        (ListBody
           (Meta (length (object_list data_page)) page (per_page self)
                 (end_index data_page) (length data))
           results)
        "*").

(** [PublicListEndpoint.get], decorated with [cachebusterable]. *)
Definition list_get (self : endpoint) : params
  → outcome (http200 (list_body J)) :=
  cachebusterable (list_get_raw self).

(** [PublicDetailEndpoint.get] before decoration. *)
Definition detail_get_raw (self : endpoint) (pk : string) (request : params)
  : outcome (http200 J) :=
  let ps := request in
  let '(fields_param, ps) := pop_param "fields" ps in
  let fields := from_option split_comma (default_fields self) fields_param in
  '(related, config) ←
    get_fields (spec_store self) (serialize_config self) fields;
  obj ← qs_get pk (prefetch_related related (objects self));
  j ← serialize_with (spec_store self) config obj;
  Ok (Http200 j "*").

Definition detail_get (self : endpoint) (pk : string) : params
  → outcome (http200 J) :=
  cachebusterable (detail_get_raw self pk).

End Endpoints.


(** ** Example endpoints *)

(** A view over 250 rows with the class defaults: pages of 100, the
    empty [serialize_config], no default fields. *)
Definition demo_list_endpoint : endpoint :=
  Endpoint (seq 0 250) 100 ex_store (VObj 4) [].

(** A view over three rows whose [serialize_config] is the root of
    [ex_store]. *)
Definition demo_endpoint : endpoint :=
  Endpoint [10; 20; 30] 100 ex_store (VObj 0) ["name"].

(** Collaborators for the examples.  The rows carry no attributes, so
    any equality filter selects nothing; ordering leaves the rows as they
    are; the primary key is the decimal position; serializing returns the
    row together with the names of the entries of the spec. *)
Definition demo_filter (kwargs : params) (data : list nat)
  : outcome (list nat) :=
  if decide (kwargs = ∅) then Ok data else Ok [].

Definition demo_order_by (sort_by : list string) (data : list nat)
  : outcome (list nat) := Ok data.

Definition demo_get (pk : string) (data : list nat) : outcome nat :=
  match py_int pk with
  | Some z =>
      match data !! Z.to_nat z with
      | Some x => Ok x
      | None => Raise DoesNotExist
      end
  | None => Raise ValueError
  end.

Definition demo_serialize (x : nat) (kwargs : dict)
  : outcome (nat * list string) :=
  Ok (x, kwargs.*1).

(** A filter that would betray a ["_"] parameter reaching it. *)
Definition demo_leaky_filter (kwargs : params) (data : list nat)
  : outcome (list nat) :=
  match kwargs !! "_" with
  | Some _ => Raise ValueError
  | None => demo_filter kwargs data
  end.


(** ** Further notions used in the statements *)

(** [c in s]. *)
Fixpoint has_char (c : ascii) (s : string) : bool :=
  match s with
  | EmptyString => false
  | String c' s' => Ascii.eqb c' c || has_char c s'
  end.

(** [",".join(l)]. *)
Fixpoint join_comma (l : list string) : string :=
  match l with
  | [] => EmptyString
  | x :: xs =>
      match xs with
      | [] => x
      | _ => x +:+ "," +:+ join_comma xs
      end
  end.

(** The name a requested field is looked up under in [root]: the field
    itself, or its prefix when it is dotted. *)
Definition top_name (field : string) : string :=
  match split_dot field with
  | Some (prefix, _) => prefix
  | None => field
  end.

Definition is_concrete (field : string) : bool :=
  match split_dot field with
  | None => true
  | Some _ => false
  end.

(** The remainders, in request order, of the fields whose prefix is
    [key]. *)
Definition postfixes (key : string) (fields : list string) : list string :=
  omap (λ field,
          match split_dot field with
          | Some (prefix, postfix) =>
              if String.eqb prefix key then Some postfix else None
          | None => None
          end) fields.

(** An exception raised below the path [segs], as it leaves the
    outermost call: only a [FieldKeyError] is rewritten on the way up. *)
Definition qualified (segs : list string) (e : exn) : exn :=
  match e with
  | FieldKeyError f => FieldKeyError (dotted_path segs f)
  | _ => e
  end.

(** What an exception leaving [get_fields] says about the request: a
    [FieldKeyError] carries one of the requested fields, a [KeyError]
    carries a segment that some requested field continues below. *)
Definition explained (fields : list string) (e : exn) : Prop :=
  match e with
  | FieldKeyError f => f ∈ fields
  | KeyError k =>
      ∃ segs rest, Forall nodot segs ∧ nodot k
                   ∧ dotted_path segs (dotted k rest) ∈ fields
  | TypeError => True
  | _ => False
  end.

(** [field.split(".")]: all the segments of a requested field. *)
Fixpoint split_dots (s : string) : list string :=
  match s with
  | EmptyString => [EmptyString]
  | String c s' =>
      if Ascii.eqb c "."%char then EmptyString :: split_dots s'
      else match split_dots s' with
           | x :: xs => String c x :: xs
           | [] => [String c EmptyString]
           end
  end.

(** Every segment of [field] can be looked up in turn, starting from
    [root]. *)
Definition resolves (h : store) (root : value) (field : string) : Prop :=
  is_Some (walk h root (split_dots field)).

(** ** What the views read out of a request *)

(** The page number: [1] unless a [page] parameter is given, which is
    then read by [int]. *)
Definition requested_page (ps : params) : outcome Z :=
  match ps !! "page" with
  | None => Ok 1%Z
  | Some s =>
      match py_int s with
      | Some z => Ok z
      | None => Raise ValueError
      end
  end.

(** The sort keys: none unless a [sort_by] parameter is given. *)
Definition requested_sort (ps : params) : list string :=
  from_option split_comma [] (ps !! "sort_by").

(** The fields to project: [default] unless a [fields] parameter is
    given. *)
Definition requested_fields (default : list string) (ps : params)
  : list string :=
  from_option split_comma default (ps !! "fields").

(** The names the list view takes out of the parameters before
    filtering. *)
Definition control_params : list string := ["_"; "page"; "sort_by"; "fields"].

(** How the list view reports an exception of [get_fields]. *)
Definition list_view_error (e : exn) : exn :=
  match e with
  | FieldKeyError field => HttpError 400 (invalid_field_path field)
  | KeyError k => HttpError 400 (invalid_field (key_error_str k))
  | _ => e
  end.

(** ** get_field_list *)

(** [get_field_list(model, without)], [field_names] being what
    [model._meta.get_all_field_names()] returns.  Python leaves the
    order of [list(set)] open; here it is the order of [elements]. *)
Definition get_field_list (field_names : list string)
    (without : option (list string)) : list string :=
  let without : gset string :=
    match without with
    | None => ∅
    | Some w => list_to_set w
    end in
  elements (list_to_set field_names ∖ without).

(** ** The relations a field asks to load *)

(** For the segments [s1; ...; sn] of a field, the eager-load paths
    [s1], [s1__s2], ..., [s1__...__s(n-1)]: every proper prefix, joined
    with the double underscore. *)
Fixpoint prefix_paths_of (segs : list string) : list string :=
  match segs with
  | [] => []
  | s :: rest =>
      match rest with
      | [] => []
      | _ => s :: (dunder s <$> prefix_paths_of rest)
      end
  end.

Definition prefix_paths (field : string) : list string :=
  prefix_paths_of (split_dots field).
(** ** Termination of [fwrap] *)

Lemma vdepth_items_lt (k : string) (x : value) (d : dict) :
  (k, x) ∈ d → vdepth x < vdepth (VDict d).
Proof.
  induction d as [|[k' y] d IH]; intros Hin.
  - by apply elem_of_nil in Hin.
  - apply elem_of_cons in Hin as [Heq|Hin].
    + inversion Heq; subst. simpl. lia.
    + specialize (IH Hin). simpl in *. lia.
Qed.

Section FwrapTermination.
Context (h : store).

Lemma as_dict_obj_depth (a : addr) (d : dict) (k : string) (x : value) :
  as_dict h (VObj a) = Some d → (k, x) ∈ d → vdepth x = 0.
Proof.
  simpl. destruct (h !! a) as [[]|]; try done.
  intros [= <-] Hin. apply list_elem_of_fmap in Hin as ([k' r] & Heq & _).
  inversion Heq; subst. by destruct r.
Qed.

Lemma as_dict_obj_dom (a : addr) (d : dict) :
  as_dict h (VObj a) = Some d → a ∈ dom h.
Proof.
  simpl. destruct (h !! a) eqn:E; [|done]. intros _.
  apply elem_of_dom. eauto.
Qed.

Lemma unvisited_add (a : addr) (memo : gset addr) :
  a ∈ dom h → a ∉ memo →
  size (dom h ∖ ({[a]} ∪ memo)) < size (dom h ∖ memo).
Proof.
  intros Hdom Hmemo. apply subset_size. set_solver.
Qed.

Lemma unvisited_mono (memo memo' : gset addr) :
  memo ⊆ memo' → size (dom h ∖ memo') ≤ size (dom h ∖ memo).
Proof. intros Hsub. apply subseteq_size. set_solver. Qed.

(** The list comprehension finishes when every call it makes does. *)
Lemma fwrap_items_total (n : nat) (items : dict) (memo : gset addr) :
  (∀ obj memo0, vdepth obj + size (dom h ∖ memo0) < n →
     ∃ v memo', fwrap_aux h n obj memo0 = Ok (v, memo') ∧ memo0 ⊆ memo') →
  (∀ k x, (k, x) ∈ items → vdepth x + size (dom h ∖ memo) < n) →
  ∃ l memo', fwrap_items (fwrap_aux h n) items memo = Ok (l, memo')
             ∧ memo ⊆ memo'.
Proof.
  intros IH. revert memo.
  induction items as [|[k x] items IHitems]; intros memo Hlt.
  - exists [], memo. done.
  - destruct (IH x memo) as (v & memo1 & Hv & Hsub1).
    { apply (Hlt k). left. }
    destruct (IHitems memo1) as (l & memo2 & Hl & Hsub2).
    { intros k' x' Hin. pose proof (unvisited_mono _ _ Hsub1).
      specialize (Hlt k' x' ltac:(by right)). lia. }
    exists ((k, v) :: l), memo2. split; [|set_solver].
    simpl. rewrite Hv. simpl. rewrite Hl. done.
Qed.

(** [fwrap] returns once its fuel exceeds the nesting of [obj] plus the
    number of stored objects not yet in the memo. *)
Lemma fwrap_aux_total (n : nat) (obj : value) (memo : gset addr) :
  vdepth obj + size (dom h ∖ memo) < n →
  ∃ v memo', fwrap_aux h n obj memo = Ok (v, memo') ∧ memo ⊆ memo'.
Proof.
  revert obj memo. induction n as [|n IH]; intros obj memo Hlt; [lia|].
  simpl. destruct (id_in obj memo) eqn:Hid; [by eauto|].
  assert (memo ⊆ memo_add obj memo) as Hadd.
  { destruct obj; simpl; set_solver. }
  destruct (as_dict h obj) as [d|] eqn:Hd; [|by eauto].
  destruct (is_nil d || truthy h (dict_get_default "fields" d)); [by eauto|].
  destruct (fwrap_items_total n d (memo_add obj memo) IH)
    as (l & memo' & -> & Hsub).
  { intros k x Hin. destruct obj as [|a|?|d']; try done.
    - rewrite (as_dict_obj_depth a d k x Hd Hin). simpl.
      simpl in Hid. apply bool_decide_eq_false in Hid.
      pose proof (unvisited_add a memo (as_dict_obj_dom a d Hd) Hid).
      simpl in Hlt. lia.
    - simpl in Hd. injection Hd as ->.
      pose proof (vdepth_items_lt k x d Hin). simpl memo_add. lia. }
  simpl. destruct (is_nil _); eexists _, _; (split; [done|set_solver]).
Qed.

Lemma fwrap_total (obj : value) : ∃ v, fwrap h obj = Ok v.
Proof.
  unfold fwrap, fwrap_fuel.
  destruct (fwrap_aux_total (S (vdepth obj + size (dom h))) obj ∅)
    as (v & memo' & -> & _).
  { pose proof (unvisited_mono ∅ ∅ ltac:(done)).
    assert (size (dom h ∖ (∅ : gset addr)) ≤ size (dom h))
      by (apply subseteq_size; set_solver).
    lia. }
  by exists v.
Qed.

End FwrapTermination.

(** ** Fuel does not matter once there is enough of it *)

Section FwrapFuel.
Context (h : store).

Lemma fwrap_items_mono
    (f g : value → gset addr → outcome (value * gset addr))
    (items : dict) (memo : gset addr) (r : dict * gset addr) :
  (∀ y memo0 r0, f y memo0 = Ok r0 → g y memo0 = Ok r0) →
  fwrap_items f items memo = Ok r → fwrap_items g items memo = Ok r.
Proof.
  intros Hfg. revert memo r.
  induction items as [|[k x] items IH]; intros memo r; [done|].
  simpl. destruct (f x memo) as [[v memo1]| |] eqn:Hf; try done.
  rewrite (Hfg _ _ _ Hf). simpl.
  destruct (fwrap_items f items memo1) as [[vs memo2]| |] eqn:Hrest;
    try done.
  by rewrite (IH _ _ Hrest).
Qed.

Lemma fwrap_aux_mono (n m : nat) (obj : value) (memo : gset addr)
    (r : value * gset addr) :
  n ≤ m → fwrap_aux h n obj memo = Ok r → fwrap_aux h m obj memo = Ok r.
Proof.
  revert m obj memo r.
  induction n as [|n IH]; intros m obj memo r Hle; [done|].
  destruct m as [|m]; [lia|]. simpl.
  destruct (id_in obj memo); [done|].
  destruct (as_dict h obj) as [d|]; [|done].
  destruct (is_nil d || truthy h (dict_get_default "fields" d)); [done|].
  destruct (fwrap_items (fwrap_aux h n) d (memo_add obj memo))
    as [[l memo']| |] eqn:Hitems; try done.
  rewrite (fwrap_items_mono _ (fwrap_aux h m) _ _ _
             ltac:(intros; apply IH; [lia|done]) Hitems).
  done.
Qed.

(** Any fuel above [fwrap_fuel] computes the same [fwrap(obj)]. *)
Lemma fwrap_fuel_irrelevant (n : nat) (obj : value) :
  fwrap_fuel h obj ≤ n →
  ('(v, _) ← fwrap_aux h n obj ∅; Ok v) = fwrap h obj.
Proof.
  intros Hle. unfold fwrap.
  destruct (fwrap_aux_total h (fwrap_fuel h obj) obj ∅)
    as (v & memo' & Hv & _).
  { unfold fwrap_fuel.
    assert (size (dom h ∖ (∅ : gset addr)) ≤ size (dom h))
      by (apply subseteq_size; set_solver).
    lia. }
  by rewrite Hv, (fwrap_aux_mono _ n _ _ _ Hle Hv).
Qed.

End FwrapFuel.

(** ** Splitting and grouping the requested fields *)

Lemma split_dot_length (s p q : string) :
  split_dot s = Some (p, q) → String.length q < String.length s.
Proof.
  revert p q. induction s as [|c s IH]; intros p q; [done|]. simpl.
  destruct (Ascii.eqb c "."); [intros [= <- <-]; lia|].
  destruct (split_dot s) as [[p' q']|]; [|done].
  intros [= <- <-]. specialize (IH _ _ eq_refl). lia.
Qed.

Lemma split_dot_dotted (key rest : string) :
  nodot key → split_dot (dotted key rest) = Some (key, rest).
Proof.
  unfold nodot, dotted. induction key as [|c key IH]; [done|]. simpl.
  destruct (Ascii.eqb c "."); [done|].
  destruct (split_dot key) as [[]|]; [done|]. intros _.
  by rewrite IH.
Qed.

Lemma group_add_bound (M : nat) (key post : string)
    (g : list (string * list string)) :
  String.length post < M → groups_bound M g →
  groups_bound M (group_add key post g).
Proof.
  intros Hpost. unfold groups_bound.
  induction g as [|[k ps] g IH]; intros Hg; simpl.
  - repeat constructor; done.
  - apply Forall_cons in Hg as [[Hne Hps] Hg].
    destruct (String.eqb k key).
    + constructor; [|done]. simpl. split.
      * by destruct ps.
      * apply Forall_app. split; [done|]. by constructor.
    + constructor; [done|]. by apply IH.
Qed.

Lemma fold_classify_bound (M : nat) (fields : list string)
    (acc : list string * list (string * list string)) :
  Forall (λ f, String.length f ≤ M) fields →
  groups_bound M acc.2 →
  groups_bound M (fold_left classify fields acc).2.
Proof.
  revert acc. induction fields as [|f fields IH]; intros acc Hf Hacc; [done|].
  apply Forall_cons in Hf as [Hlen Hf]. simpl. apply IH; [done|].
  unfold classify. destruct (split_dot f) as [[p q]|] eqn:Hs; [|done].
  simpl. apply group_add_bound; [|done].
  apply split_dot_length in Hs. lia.
Qed.

Lemma list_max_ge (l : list nat) : Forall (λ k, k ≤ list_max l) l.
Proof. by apply list_max_le. Qed.

(** Every group handed to a recursive call holds strictly shorter
    strings than the longest requested field. *)
Lemma partition_fields_bound (fields : list string) :
  Forall (λ kr, list_max (String.length <$> kr.2)
                < list_max (String.length <$> fields))
         (partition_fields fields).2.
Proof.
  pose proof (fold_classify_bound (list_max (String.length <$> fields))
                fields ([], [])) as Hb.
  unfold partition_fields.
  eapply Forall_impl; [apply Hb|].
  - apply Forall_forall. intros f Hin.
    pose proof (list_max_ge (String.length <$> fields)) as Hmax.
    rewrite Forall_forall in Hmax. apply Hmax.
    apply list_elem_of_fmap. eauto.
  - constructor.
  - intros [k ps] [Hne Hps]. simpl in *.
    apply list_max_lt; [by destruct ps|].
    apply List.Forall_map. done.
Qed.

Section GetFieldsFuel.
Context (h : store).

Lemma build_concrete_returns (root : value) (concrete : list string)
    (ret : dict) : build_concrete h root concrete ret ≠ OutOfFuel.
Proof.
  revert ret. induction concrete as [|x xs IH]; intros ret; [done|].
  simpl. unfold getitem.
  destruct (as_dict h root) as [d|]; [|done].
  destruct (dict_get x d) as [y|]; [|done]. simpl.
  destruct (fwrap_total h y) as [v ->]. simpl. apply IH.
Qed.

Lemma subfields_loop_ext
    (rec1 rec2 : value → list string → outcome (gset string * value))
    (root : value) (groups : list (string * list string))
    (prefetch : gset string) (ret : dict) :
  Forall (λ kr, ∀ node, rec1 node kr.2 = rec2 node kr.2) groups →
  subfields_loop h rec1 root groups prefetch ret
  = subfields_loop h rec2 root groups prefetch ret.
Proof.
  revert prefetch ret.
  induction groups as [|[key rest] groups IH]; intros prefetch ret Hext;
    [done|].
  apply Forall_cons in Hext as [Hrec Hext]. simpl in *.
  destruct (getitem h root key) as [node|[]|]; simpl; try done.
  rewrite Hrec.
  destruct (rec2 node rest) as [[p v]|[]|]; simpl; try done.
  by apply IH.
Qed.

Lemma subfields_loop_returns
    (rec : value → list string → outcome (gset string * value))
    (root : value) (groups : list (string * list string))
    (prefetch : gset string) (ret : dict) :
  Forall (λ kr, ∀ node, rec node kr.2 ≠ OutOfFuel) groups →
  subfields_loop h rec root groups prefetch ret ≠ OutOfFuel.
Proof.
  revert prefetch ret.
  induction groups as [|[key rest] groups IH]; intros prefetch ret Hrec;
    [done|].
  apply Forall_cons in Hrec as [Hnode Hrec]. simpl in *.
  unfold getitem. destruct (as_dict h root) as [d|]; [|done].
  destruct (dict_get key d) as [node|]; [|done]. simpl.
  specialize (Hnode node).
  destruct (rec node rest) as [[p v]|[]|]; simpl; try done.
  by apply IH.
Qed.

(** With fuel above the longest requested field, [get_fields] returns
    or raises, and more fuel changes nothing. *)
Lemma get_fields_aux_fuel (n m : nat) (root : value)
    (fields : list string) :
  list_max (String.length <$> fields) < n →
  list_max (String.length <$> fields) < m →
  get_fields_aux h n root fields = get_fields_aux h m root fields
  ∧ get_fields_aux h n root fields ≠ OutOfFuel.
Proof.
  revert m root fields.
  induction n as [|n IH]; intros m root fields Hn Hm; [lia|].
  destruct m as [|m]; [lia|]. simpl.
  unfold get_fields_step, get_fields_merged.
  pose proof (partition_fields_bound fields) as Hb.
  destruct (partition_fields fields) as [concrete subfields].
  simpl in Hb.
  pose proof (build_concrete_returns root concrete []) as Hc.
  destruct (build_concrete h root concrete []) as [ret|e|];
    [|by destruct e|done].
  simpl.
  rewrite (subfields_loop_ext (get_fields_aux h n) (get_fields_aux h m)).
  2:{ eapply Forall_impl; [exact Hb|]. intros [k ps] Hlt node. simpl in *.
      apply IH; lia. }
  split; [done|].
  pose proof (subfields_loop_returns (get_fields_aux h m) root subfields
                ∅ ret) as Hl.
  destruct (subfields_loop h (get_fields_aux h m) root subfields ∅ ret)
    as [[p r]|e|]; simpl; [|done|].
  - destruct (fwrap_total h (VDict r)) as [v ->]. done.
  - exfalso. apply Hl; [|done]. eapply Forall_impl; [exact Hb|].
    intros [k ps] Hlt node. simpl in *.
    destruct (IH m node ps) as [<- Hne]; [lia..|done].
Qed.

Lemma get_fields_returns (root : value) (fields : list string) :
  get_fields h root fields ≠ OutOfFuel.
Proof.
  unfold get_fields, fields_fuel.
  apply (get_fields_aux_fuel _ (S (list_max (String.length <$> fields))));
    lia.
Qed.

Lemma get_fields_fuel_irrelevant (n : nat) (root : value)
    (fields : list string) :
  fields_fuel fields ≤ n →
  get_fields_aux h n root fields = get_fields h root fields.
Proof.
  unfold get_fields, fields_fuel. intros Hle.
  apply get_fields_aux_fuel; lia.
Qed.

(** One unfolding of [get_fields], the recursive calls being
    [get_fields] again. *)
Lemma get_fields_unfold (root : value) (fields : list string) :
  get_fields h root fields = get_fields_step h (get_fields h) root fields.
Proof.
  unfold get_fields at 1. unfold fields_fuel. simpl.
  unfold get_fields_step, get_fields_merged.
  pose proof (partition_fields_bound fields) as Hb.
  destruct (partition_fields fields) as [concrete subfields].
  destruct (as_field_key_error _) as [ret| |]; simpl; try done.
  rewrite (subfields_loop_ext _ (get_fields h)); [done|].
  eapply Forall_impl; [exact Hb|]. intros [k ps] Hlt node. simpl in *.
  apply get_fields_fuel_irrelevant. unfold fields_fuel. lia.
Qed.

End GetFieldsFuel.

(** ** Qualified error paths *)

Section ErrorPaths.
Context (h : store).

Lemma partition_fields_concrete1 (k : string) :
  nodot k → partition_fields [k] = ([k], []).
Proof. unfold partition_fields, classify, nodot. simpl. by intros ->. Qed.

Lemma partition_fields_compound1 (key rest : string) :
  nodot key → partition_fields [dotted key rest] = ([], [(key, [rest])]).
Proof.
  intros Hkey. unfold partition_fields, classify. simpl.
  by rewrite split_dot_dotted.
Qed.

Lemma subfields_loop_app
    (rec : value → list string → outcome (gset string * value))
    (root : value) (g1 g2 : list (string * list string))
    (prefetch : gset string) (ret : dict) :
  subfields_loop h rec root (g1 ++ g2) prefetch ret
  = '(prefetch', ret') ← subfields_loop h rec root g1 prefetch ret;
    subfields_loop h rec root g2 prefetch' ret'.
Proof.
  revert prefetch ret.
  induction g1 as [|[key rest] g1 IH]; intros prefetch ret; [done|].
  simpl. destruct (requalify _ _) as [[p v]| |]; simpl; done.
Qed.

(** A missing concrete field deep in the tree is reported with every
    prefix on the way down. *)
Lemma get_fields_missing_path (segs : list string) (k : string)
    (root node : value) (d : dict) :
  Forall nodot segs → nodot k →
  walk h root segs = Some node →
  as_dict h node = Some d → dict_get k d = None →
  get_fields h root [dotted_path segs k]
  = Raise (FieldKeyError (dotted_path segs k)).
Proof.
  intros Hsegs Hk. revert root.
  induction Hsegs as [|s segs Hs Hsegs IH]; intros root Hwalk Hd Hget.
  - injection Hwalk as ->. rewrite get_fields_unfold.
    unfold get_fields_step, get_fields_merged. simpl.
    rewrite partition_fields_concrete1 by done.
    simpl. unfold getitem. by rewrite Hd, Hget.
  - simpl in Hwalk.
    destruct (getitem h root s) as [node1| |] eqn:Hitem; try done.
    rewrite get_fields_unfold.
    unfold get_fields_step, get_fields_merged. simpl.
    rewrite partition_fields_compound1 by done.
    simpl. rewrite Hitem. simpl.
    by rewrite (IH node1 Hwalk Hd Hget).
Qed.

End ErrorPaths.


Section Errors.
Context (h : store).

Lemma build_concrete_present (root : value) (d : dict)
    (concrete : list string) (ret : dict) :
  as_dict h root = Some d →
  Forall (λ x, is_Some (dict_get x d)) concrete →
  ∃ ret', build_concrete h root concrete ret = Ok ret'.
Proof.
  intros Hd Hall. revert ret.
  induction Hall as [|x xs [y Hy] _ IH]; intros ret; [by eexists|].
  simpl. unfold getitem. rewrite Hd, Hy. simpl.
  destruct (fwrap_total h y) as [v ->]. simpl. apply IH.
Qed.

Lemma build_concrete_missing (root : value) (d : dict)
    (before after : list string) (k : string) (ret : dict) :
  as_dict h root = Some d →
  Forall (λ x, is_Some (dict_get x d)) before →
  dict_get k d = None →
  build_concrete h root (before ++ k :: after) ret = Raise (KeyError k).
Proof.
  intros Hd Hall Hk. revert ret.
  induction Hall as [|x xs [y Hy] _ IH]; intros ret; simpl; unfold getitem.
  - by rewrite Hd, Hk.
  - rewrite Hd, Hy. simpl. destruct (fwrap_total h y) as [v ->]. simpl.
    apply IH.
Qed.

End Errors.

(** X22. Where [get_fields] does report the fully qualified path.
    (1) Requesting the single path [s1.s2. ... .sn.k], where the segments
    lead from [root] to a dict that has no key [k], raises
    [FieldKeyError] with the whole path: the last segment is the one
    that is missing.  (2) In any field list, the first missing concrete
    field [k] raises [FieldKeyError k].  (3) In any field list, when the
    recursive call for the group [key] raises [FieldKeyError f] after
    the earlier groups succeeded, [get_fields] raises
    [FieldKeyError (key.f)]. *)
Theorem get_fields_qualified_error (h : store) :
  (∀ segs k root node d,
     Forall nodot segs → nodot k →
     walk h root segs = Some node →
     as_dict h node = Some d → dict_get k d = None →
     get_fields h root [dotted_path segs k]
     = Raise (FieldKeyError (dotted_path segs k)))
  ∧ (∀ root d fields before k after subfields,
       as_dict h root = Some d →
       partition_fields fields = (before ++ k :: after, subfields) →
       Forall (λ x, is_Some (dict_get x d)) before →
       dict_get k d = None →
       get_fields h root fields = Raise (FieldKeyError k))
  ∧ (∀ root fields concrete g1 key rest g2 ret prefetch ret' node f,
       partition_fields fields = (concrete, g1 ++ (key, rest) :: g2) →
       build_concrete h root concrete [] = Ok ret →
       subfields_loop h (get_fields h) root g1 ∅ ret = Ok (prefetch, ret') →
       getitem h root key = Ok node →
       get_fields h node rest = Raise (FieldKeyError f) →
       get_fields h root fields = Raise (FieldKeyError (dotted key f))).
Proof.
  split; [|split].
  - intros. by eapply get_fields_missing_path.
  - intros root d fields before k after subfields Hd Hpart Hall Hk.
    rewrite get_fields_unfold. unfold get_fields_step, get_fields_merged.
    rewrite Hpart.
    by rewrite (build_concrete_missing h root d before after k [] Hd Hall Hk).
  - intros root fields concrete g1 key rest g2 ret prefetch ret' node f
      Hpart Hret Hloop Hnode Hrec.
    rewrite get_fields_unfold. unfold get_fields_step, get_fields_merged.
    rewrite Hpart, Hret. simpl.
    rewrite subfields_loop_app, Hloop. simpl.
    rewrite Hnode. simpl. by rewrite Hrec.
Qed.

Lemma get_fields_qualified_error_witness :
  get_fields ex_store (VObj 0) ["bogus"] = Raise (FieldKeyError "bogus")
  ∧ get_fields ex_store (VObj 0) ["a.bogus"]
    = Raise (FieldKeyError "a.bogus")
  ∧ get_fields ex_store (VObj 0) ["name"; "bogus"; "a.b"]
    = Raise (FieldKeyError "bogus")
  ∧ get_fields ex_store (VObj 0) ["name"; "a.b"; "self.a.bogus"]
    = Raise (FieldKeyError "self.a.bogus").
Proof.
  destruct (get_fields_qualified_error ex_store) as (Hpath & Hconc & Hrec).
  split; [|split; [|split]].
  - apply (Hpath [] "bogus" (VObj 0) (VObj 0)
             (prod_map id deref <$>
                [("a", RObj 1); ("name", RObj 4); ("self", RObj 0);
                 ("nothing", RNone)])); try reflexivity.
    constructor.
  - apply (Hpath ["a"] "bogus" (VObj 0) (VObj 1)
             (prod_map id deref <$> [("b", RObj 2); ("c", RObj 3)]));
      try reflexivity.
    repeat constructor.
  - eapply (Hconc (VObj 0) _ _ ["name"] "bogus" [] _);
      [reflexivity|reflexivity| |reflexivity].
    repeat constructor. by eexists.
  - eapply (Hrec (VObj 0) _ ["name"] [("a", ["b"])] "self" ["a.bogus"] []);
      [reflexivity|vm_compute; reflexivity|vm_compute; reflexivity
      |reflexivity|vm_compute; reflexivity].
Defined.

(** X23. When the prefix of the first group of compound fields is not a
    key of the dict [root], and every concrete field requested is,
    [get_fields] ends in the [KeyError] of the lookup [root[prefix]],
    carrying the prefix. *)
Theorem get_fields_missing_prefix (h : store) (root : value) (d : dict)
    (fields concrete : list string) (key : string) (rest : list string)
    (groups : list (string * list string)) :
  as_dict h root = Some d →
  partition_fields fields = (concrete, (key, rest) :: groups) →
  Forall (λ x, is_Some (dict_get x d)) concrete →
  dict_get key d = None →
  get_fields h root fields = Raise (KeyError key).
Proof.
  intros Hd Hpart Hall Hkey.
  rewrite get_fields_unfold. unfold get_fields_step, get_fields_merged.
  rewrite Hpart.
  destruct (build_concrete_present h root d concrete [] Hd Hall) as [ret ->].
  simpl. unfold getitem. by rewrite Hd, Hkey.
Qed.

Lemma get_fields_missing_prefix_witness :
  get_fields ex_store (VObj 0) ["name"; "p.x"; "a.b"] = Raise (KeyError "p").
Proof.
  eapply (get_fields_missing_prefix ex_store (VObj 0) _ _ ["name"] "p" ["x"]
            [("a", ["b"])]);
    [reflexivity|reflexivity| |reflexivity].
  repeat constructor. by eexists.
Defined.

(** C1 (what the code does).  On the tree whose root has the relation
    ["a"], a dict with the keys ["b"] and ["c"] only, the request
    [a.p.x] fails inside the recursive call for ["a"], at the lookup of
    ["p"]: what leaves [get_fields] is the bare [KeyError] for ["p"],
    not a [FieldKeyError], and the path [a.p] is lost.  When it is the
    last segment that is missing, at the same depth or at the top, the
    error is the [FieldKeyError] with the qualified path. *)
Theorem get_fields_nested_prefix_unqualified :
  as_dict ex_store (VObj 0)
  = Some [("a", VObj 1); ("name", VObj 4); ("self", VObj 0);
          ("nothing", VNone)]
  ∧ as_dict ex_store (VObj 1) = Some [("b", VObj 2); ("c", VObj 3)]
  ∧ get_fields ex_store (VObj 0) ["a.p.x"] = Raise (KeyError "p")
  ∧ (∀ f, get_fields ex_store (VObj 0) ["a.p.x"] ≠ Raise (FieldKeyError f))
  ∧ get_fields ex_store (VObj 0) ["a.p"] = Raise (FieldKeyError "a.p")
  ∧ get_fields ex_store (VObj 0) ["a.bogus"]
    = Raise (FieldKeyError "a.bogus")
  ∧ get_fields ex_store (VObj 0) ["bogus"] = Raise (FieldKeyError "bogus").
Proof.
  assert (get_fields ex_store (VObj 0) ["a.p.x"] = Raise (KeyError "p"))
    as Hget by (vm_compute; reflexivity).
  split; [|split; [|split; [|split; [|split; [|split]]]]];
    try (vm_compute; reflexivity).
  intros f. by rewrite Hget.
Qed.

(** C3 (what the code does).  On the same tree, whose root has no key
    ["p"], the request [p.x] ends in the bare [KeyError] for ["p"] and
    not in a [FieldKeyError]; the concrete request [p] for the same
    missing key ends in [FieldKeyError].  In the list view the two are
    answered by different handlers, with different messages. *)
Theorem get_fields_missing_prefix_escapes :
  as_dict ex_store (VObj 0)
  = Some [("a", VObj 1); ("name", VObj 4); ("self", VObj 0);
          ("nothing", VNone)]
  ∧ get_fields ex_store (VObj 0) ["p.x"] = Raise (KeyError "p")
  ∧ (∀ f, get_fields ex_store (VObj 0) ["p.x"] ≠ Raise (FieldKeyError f))
  ∧ get_fields ex_store (VObj 0) ["p"] = Raise (FieldKeyError "p")
  ∧ list_get demo_filter demo_order_by demo_serialize demo_endpoint
      {["fields" := "p.x"]}
    = Raise (HttpError 400 "Error: Invalid field: 'p'")
  ∧ list_get demo_filter demo_order_by demo_serialize demo_endpoint
      {["fields" := "p"]}
    = Raise (HttpError 400 (invalid_field_path "p")).
Proof.
  assert (get_fields ex_store (VObj 0) ["p.x"] = Raise (KeyError "p"))
    as Hget by (vm_compute; reflexivity).
  split; [|split; [|split; [|split; [|split]]]];
    try (vm_compute; reflexivity).
  intros f. by rewrite Hget.
Qed.

Section Prefetch.
Context (h : store).

Lemma subfields_loop_prefetch
    (rec : value → list string → outcome (gset string * value))
    (root : value) (groups : list (string * list string))
    (p p' : gset string) (r r' : dict) :
  subfields_loop h rec root groups p r = Ok (p', r') →
  ∃ subs : list (gset string),
    Forall2 (λ kr sub, ∃ node v, getitem h root kr.1 = Ok node
                                 ∧ rec node kr.2 = Ok (sub, v))
            groups subs
    ∧ p' = p ∪ ⋃ (zip_with group_prefetch groups subs).
Proof.
  revert p r.
  induction groups as [|[key rest] groups IH]; intros p r; simpl.
  - intros [= <- <-]. exists []. split; [constructor|]. set_solver.
  - destruct (getitem h root key) as [node|[]|] eqn:Hnode; simpl; try done.
    destruct (rec node rest) as [[sub v]|[]|] eqn:Hrec; simpl; try done.
    intros Hloop. destruct (IH _ _ Hloop) as (subs & Hall & ->).
    exists (sub :: subs). split.
    + constructor; [|done]. simpl. eauto.
    + simpl. unfold group_prefetch at 2. simpl. set_solver.
Qed.

Lemma subfields_loop_prefetch_paths
    (rec : value → list string → outcome (gset string * value))
    (F : list string → gset string)
    (root : value) (groups : list (string * list string))
    (p p' : gset string) (r r' : dict) :
  (∀ node fs q v, rec node fs = Ok (q, v) → q = F fs) →
  subfields_loop h rec root groups p r = Ok (p', r') →
  p' = p ∪ ⋃ ((λ kr, group_prefetch kr (F kr.2)) <$> groups).
Proof.
  intros HF. revert p r.
  induction groups as [|[key rest] groups IH]; intros p r; simpl.
  - intros [= <- <-]. set_solver.
  - destruct (getitem h root key) as [node|[]|]; simpl; try done.
    destruct (rec node rest) as [[sub v]|[]|] eqn:Hrec; simpl; try done.
    intros Hloop. rewrite (IH _ _ Hloop). rewrite (HF _ _ _ _ Hrec).
    unfold group_prefetch at 2. simpl. set_solver.
Qed.

Lemma get_fields_aux_prefetch_paths (n : nat) (root : value)
    (fields : list string) (p : gset string) (v : value) :
  get_fields_aux h n root fields = Ok (p, v) → p = prefetch_paths n fields.
Proof.
  revert root fields p v. induction n as [|n IH]; intros root fields p v;
    [done|].
  simpl. unfold get_fields_step, get_fields_merged.
  destruct (partition_fields fields) as [concrete subfields]. simpl.
  destruct (as_field_key_error _) as [ret| |]; simpl; try done.
  destruct (subfields_loop _ _ _ _ _ _) as [[q r]| |] eqn:Hloop; simpl;
    try done.
  destruct (fwrap h (VDict r)) as [w| |]; simpl; try done.
  intros [= <- <-].
  rewrite (subfields_loop_prefetch_paths _ (prefetch_paths n) _ _ _ _ _ _
             IH Hloop).
  set_solver.
Qed.

End Prefetch.

(** C2. When [get_fields] returns, its prefetch set is the union, over
    the groups of compound fields sharing a prefix, of the prefix itself
    and of [prefix__x] for every [x] in the prefetch set of the recursive
    call made for that group; it starts empty and concrete fields add
    nothing to it.  It is therefore a function of the requested fields
    alone, [prefetch_paths]. *)
Theorem get_fields_prefetch (h : store) (root : value)
    (fields : list string) (prefetch : gset string) (spec : value) :
  get_fields h root fields = Ok (prefetch, spec) →
  (∃ subs : list (gset string),
     Forall2 (recursive_prefetch h root) (partition_fields fields).2 subs
     ∧ prefetch
       = ⋃ (zip_with group_prefetch (partition_fields fields).2 subs))
  ∧ prefetch = prefetch_paths (fields_fuel fields) fields.
Proof.
  intros Hget. split; [|by eapply get_fields_aux_prefetch_paths].
  revert Hget.
  rewrite get_fields_unfold. unfold get_fields_step, get_fields_merged.
  destruct (partition_fields fields) as [concrete subfields]. simpl.
  destruct (as_field_key_error _) as [ret| |]; simpl; try done.
  destruct (subfields_loop _ _ _ _ _ _) as [[p r]| |] eqn:Hloop; simpl;
    try done.
  destruct (fwrap h (VDict r)) as [v| |]; simpl; try done.
  intros [= <- <-].
  destruct (subfields_loop_prefetch h _ _ _ _ _ _ _ Hloop)
    as (subs & Hall & ->).
  exists subs. split; [exact Hall|]. set_solver.
Qed.

Lemma get_fields_prefetch_witness :
  (∃ subs : list (gset string),
     Forall2 (recursive_prefetch ex_store (VObj 0))
             [("self", ["a.b"; "a.c"; "name"]); ("a", ["b"])] subs
     ∧ ({[ "self"; "self__a"; "a" ]} : gset string)
       = ⋃ (zip_with group_prefetch
              [("self", ["a.b"; "a.c"; "name"]); ("a", ["b"])] subs))
  ∧ ({[ "self"; "self__a"; "a" ]} : gset string)
    = prefetch_paths 10
        ["self.a.b"; "name"; "a.b"; "self.a.c"; "self.name"].
Proof.
  apply (get_fields_prefetch ex_store (VObj 0)
           ["self.a.b"; "name"; "a.b"; "self.a.c"; "self.name"]
           {[ "self"; "self__a"; "a" ]}
           (VDict
              [("fields",
                VPairs
                  [("name", VObj 4);
                   ("self",
                    VDict
                      [("fields",
                        VPairs
                          [("name", VObj 4);
                           ("a",
                            VDict
                              [("fields",
                                VPairs [("b", VObj 2); ("c", VObj 3)])])])]);
                   ("a", VDict [("fields", VPairs [("b", VObj 2)])])])])).
  vm_compute. reflexivity.
Defined.

(** ** The final wrap in closed form *)

Section FinalWrapFacts.
Context (h : store).

Lemma fwrap_aux_unfold (n : nat) (obj : value) (memo : gset addr) :
  fwrap_aux h (S n) obj memo
  = if id_in obj memo then Ok (VNone, memo)
    else
      match as_dict h obj with
      | Some d =>
          if is_nil d || truthy h (dict_get_default "fields" d)
          then Ok (obj, memo_add obj memo)
          else
            '(l, memo') ← fwrap_items (fwrap_aux h n) d (memo_add obj memo);
            let l := List.filter (λ x, negb (is_none x.2)) l in
            if is_nil l then Ok (VNone, memo')
            else Ok (VDict [("fields", VPairs l)], memo')
      | None => Ok (obj, memo_add obj memo)
      end.
Proof. done. Qed.

Lemma fwrap_aux_passes (n : nat) (v : value) (memo : gset addr) :
  passes h v = true →
  fwrap_aux h (S n) v memo
  = Ok (if id_in v memo then VNone else v, memo_add v memo).
Proof.
  unfold passes. intros Hp. simpl.
  destruct (id_in v memo) eqn:Hid.
  - destruct v; try done. simpl in *. apply bool_decide_eq_true in Hid.
    do 2 f_equal. set_solver.
  - destruct (as_dict h v) as [d|]; [|done]. by rewrite Hp.
Qed.

Lemma fwrap_items_passes (n : nat) (items : dict) (memo : gset addr) :
  Forall (λ kv, passes h kv.2 = true) items →
  fwrap_items (fwrap_aux h (S n)) items memo = Ok (revisit items memo).
Proof.
  intros Hall. revert memo.
  induction Hall as [|[k v] items Hv _ IH]; intros memo; [done|].
  cbn [fwrap_items revisit]. rewrite fwrap_aux_passes by done.
  cbn [mbind outcome_bind]. rewrite IH. cbn [mbind outcome_bind].
  by destruct (revisit items (memo_add v memo)).
Qed.

Lemma vdepth_dict_pos (d : dict) : ∃ k, vdepth (VDict d) = S k.
Proof. simpl. eauto. Qed.

Lemma fwrap_fresh_dict (ret : dict) :
  Forall (λ kv, passes h kv.2 = true) ret →
  fwrap h (VDict ret) = Ok (final_wrap h ret).
Proof.
  intros Hall. unfold fwrap, fwrap_fuel, final_wrap.
  destruct (vdepth_dict_pos ret) as [k ->].
  change (S k + size (dom h)) with (S (k + size (dom h))).
  rewrite fwrap_aux_unfold. cbn [id_in as_dict memo_add].
  destruct (is_nil ret || truthy h (dict_get_default "fields" ret)); [done|].
  rewrite fwrap_items_passes by done.
  destruct (revisit ret ∅) as [l memo]. cbn [mbind outcome_bind fst].
  by destruct (is_nil _).
Qed.

Lemma fwrap_passes (obj v : value) : fwrap h obj = Ok v → passes h v = true.
Proof.
  unfold fwrap, fwrap_fuel. rewrite fwrap_aux_unfold.
  destruct (id_in obj ∅) eqn:Hid.
  { by destruct obj. }
  unfold passes at 1.
  destruct (as_dict h obj) as [d|] eqn:Hd.
  - destruct (is_nil d || truthy h (dict_get_default "fields" d)) eqn:Hc.
    + intros [= <-]. unfold passes. by rewrite Hd.
    + destruct (fwrap_items _ _ _) as [[l memo]| |]; try done.
      cbn [mbind outcome_bind].
      destruct (List.filter _ l) as [|x l'] eqn:Hl; intros [= <-]; done.
  - intros [= <-]. unfold passes. by rewrite Hd.
Qed.

Lemma get_fields_passes (root : value) (fields : list string)
    (p : gset string) (v : value) :
  get_fields h root fields = Ok (p, v) → passes h v = true.
Proof.
  rewrite get_fields_unfold. unfold get_fields_step.
  destruct (get_fields_merged _ _ _ _) as [[p' ret]| |]; try done.
  cbn [mbind outcome_bind].
  destruct (fwrap h (VDict ret)) as [w| |] eqn:Hw; try done.
  intros [= <- <-]. by eapply fwrap_passes.
Qed.

Lemma dict_set_Forall {V} (P : string * V → Prop) (k : string) (v : V)
    (d : list (string * V)) :
  P (k, v) → Forall P d → Forall P (dict_set k v d).
Proof.
  intros Hv. induction 1 as [|[k' v'] d Hx Hd IH]; simpl.
  - by repeat constructor.
  - destruct (String.eqb k' k); constructor; done.
Qed.

Lemma build_concrete_passes (root : value) (concrete : list string)
    (ret ret' : dict) :
  Forall (λ kv, passes h kv.2 = true) ret →
  build_concrete h root concrete ret = Ok ret' →
  Forall (λ kv, passes h kv.2 = true) ret'.
Proof.
  revert ret. induction concrete as [|x xs IH]; intros ret Hret; simpl.
  - by intros [= <-].
  - destruct (getitem h root x) as [y| |]; try done. cbn [mbind outcome_bind].
    destruct (fwrap h y) as [v| |] eqn:Hv; try done. cbn [mbind outcome_bind].
    apply IH. apply dict_set_Forall; [|done]. by eapply fwrap_passes.
Qed.

Lemma subfields_loop_passes
    (rec : value → list string → outcome (gset string * value))
    (root : value) (groups : list (string * list string))
    (p p' : gset string) (ret ret' : dict) :
  (∀ node fs q v, rec node fs = Ok (q, v) → passes h v = true) →
  Forall (λ kv, passes h kv.2 = true) ret →
  subfields_loop h rec root groups p ret = Ok (p', ret') →
  Forall (λ kv, passes h kv.2 = true) ret'.
Proof.
  intros Hrec. revert p ret.
  induction groups as [|[key rest] groups IH]; intros p ret Hret; simpl.
  - by intros [= <- <-].
  - destruct (getitem h root key) as [node|[]|]; try done.
    cbn [mbind outcome_bind].
    destruct (rec node rest) as [[q v]|[]|] eqn:Hv; try done.
    cbn [mbind outcome_bind requalify].
    apply IH. apply dict_set_Forall; [|done]. by eapply Hrec.
Qed.

(** [get_fields] is the merge followed by the closed form of the wrap. *)
Lemma get_fields_closed_form (root : value) (fields : list string) :
  get_fields h root fields
  = '(prefetch, ret) ← get_fields_merged h (get_fields h) root fields;
    Ok (prefetch, final_wrap h ret).
Proof.
  rewrite get_fields_unfold. unfold get_fields_step.
  destruct (get_fields_merged _ _ _ _) as [[p ret]| |] eqn:Hm; try done.
  cbn [mbind outcome_bind]. rewrite fwrap_fresh_dict; [done|].
  unfold get_fields_merged in Hm.
  destruct (partition_fields fields) as [concrete subfields].
  destruct (build_concrete h root concrete []) as [ret0|[]|] eqn:Hc;
    try done.
  cbn [mbind outcome_bind as_field_key_error] in Hm.
  eapply subfields_loop_passes; [|  |exact Hm].
  - intros. by eapply get_fields_passes.
  - eapply build_concrete_passes; [|exact Hc]. constructor.
Qed.

End FinalWrapFacts.

Section WrapCases.
Context (h : store).

Lemma id_in_empty (obj : value) : id_in obj ∅ = false.
Proof. by destruct obj. Qed.

(** A dict that is empty or has a truthy ["fields"] entry, and anything
    that is not a dict, comes back from [fwrap] as the same object. *)
Lemma fwrap_passthrough (obj : value) :
  passes h obj = true → fwrap h obj = Ok obj.
Proof.
  intros Hp. unfold fwrap, fwrap_fuel.
  by rewrite fwrap_aux_passes, id_in_empty.
Qed.

Lemma dict_get_default_all_none (k : string) (d : dict) :
  Forall (λ kv, kv.2 = VNone) d → dict_get_default k d = VNone.
Proof.
  unfold dict_get_default.
  induction 1 as [|[k' v] d Hv _ IH]; [done|]. simpl in *.
  destruct (String.eqb k' k); [by subst|done].
Qed.

Lemma revisit_all_none (d : dict) (memo : gset addr) :
  Forall (λ kv, kv.2 = VNone) d →
  List.filter (λ x : string * value, negb (is_none x.2)) (revisit d memo).1
  = [].
Proof.
  intros Hall. revert memo.
  induction Hall as [|[k v] d Hv _ IH]; intros memo; [done|].
  simpl in *. subst. simpl. specialize (IH memo).
  by destruct (revisit d memo).
Qed.

Lemma final_wrap_all_none (ret : dict) :
  ret ≠ [] → Forall (λ kv, kv.2 = VNone) ret → final_wrap h ret = VNone.
Proof.
  intros Hne Hall. unfold final_wrap.
  rewrite dict_get_default_all_none, revisit_all_none by done.
  by destruct ret.
Qed.

End WrapCases.

Section Revisit.
Context (h : store).

Lemma fwrap_items_memo_mono
    (f : value → gset addr → outcome (value * gset addr))
    (items l : dict) (memo memo' : gset addr) :
  (∀ y v m m', f y m = Ok (v, m') → m ⊆ m') →
  fwrap_items f items memo = Ok (l, memo') → memo ⊆ memo'.
Proof.
  intros Hf. revert memo l.
  induction items as [|[k x] items IH]; intros memo l; simpl.
  - by intros [= <- <-].
  - destruct (f x memo) as [[v m1]| |] eqn:Hx; simpl; try done.
    destruct (fwrap_items f items m1) as [[vs m2]| |] eqn:Hrest; simpl;
      try done.
    intros [= <- <-]. specialize (Hf _ _ _ _ Hx).
    specialize (IH _ _ Hrest). set_solver.
Qed.

(** The memo only grows. *)
Lemma fwrap_aux_memo_mono (n : nat) (obj v : value) (memo memo' : gset addr) :
  fwrap_aux h n obj memo = Ok (v, memo') → memo ⊆ memo'.
Proof.
  revert obj v memo memo'.
  induction n as [|n IH]; intros obj v memo memo'; [done|].
  rewrite fwrap_aux_unfold.
  assert (memo ⊆ memo_add obj memo) as Hadd.
  { destruct obj; simpl; set_solver. }
  destruct (id_in obj memo); [by intros [= <- <-]|].
  destruct (as_dict h obj) as [d|]; [|by intros [= <- <-]].
  destruct (is_nil d || _); [by intros [= <- <-]|].
  destruct (fwrap_items _ _ _) as [[l m]| |] eqn:Hitems; simpl; try done.
  pose proof (fwrap_items_memo_mono _ _ _ _ _ IH Hitems) as Hsub.
  destruct (is_nil _); intros [= <- <-]; set_solver.
Qed.

(** Inside the list comprehension, an entry that refers to an object
    already in the memo comes out as [None]. *)
Lemma fwrap_items_revisited (n : nat) (a : addr) (items l : dict)
    (memo memo' : gset addr) :
  a ∈ memo →
  fwrap_items (fwrap_aux h n) items memo = Ok (l, memo') →
  Forall2 (λ kv kw, kv.1 = kw.1 ∧ (kv.2 = VObj a → kw.2 = VNone)) items l.
Proof.
  revert memo l.
  induction items as [|[k x] items IH]; intros memo l Hin; simpl.
  - intros [= <- <-]. constructor.
  - destruct (fwrap_aux h n x memo) as [[v m1]| |] eqn:Hx; simpl; try done.
    destruct (fwrap_items _ items m1) as [[vs m2]| |] eqn:Hrest; simpl;
      try done.
    intros [= <- <-]. constructor.
    + split; [done|]. simpl. intros ->.
      destruct n as [|n]; [done|]. rewrite fwrap_aux_unfold in Hx.
      simpl in Hx. rewrite bool_decide_eq_true_2 in Hx by done.
      by injection Hx as <- <-.
    + apply (IH m1); [|done].
      pose proof (fwrap_aux_memo_mono _ _ _ _ _ Hx). set_solver.
Qed.

(** What [fwrap] keeps of a stored dict never stems from an entry that
    refers back to the dict itself. *)
Lemma fwrap_drops_self_reference (a : addr) (d : list (string * ref))
    (l : dict) (k : string) (x : value) :
  h !! a = Some (PDict d) →
  fwrap h (VObj a) = Ok (VDict [("fields", VPairs l)]) →
  (k, x) ∈ l → ∃ r, (k, r) ∈ d ∧ r ≠ RObj a.
Proof.
  intros Ha. unfold fwrap, fwrap_fuel. rewrite fwrap_aux_unfold.
  rewrite id_in_empty. simpl. rewrite Ha.
  destruct (is_nil _ || _); [done|].
  destruct (fwrap_items _ _ _) as [[l0 m]| |] eqn:Hitems; simpl; try done.
  destruct (is_nil _) eqn:Hnil; [done|]. intros [= <-] Hin.
  apply list_elem_of_In, filter_In in Hin as [Hin Hsome].
  apply list_elem_of_In in Hin.
  assert (a ∈ ({[a]} ∪ ∅ : gset addr)) as Hmemo by set_solver.
  pose proof (fwrap_items_revisited _ a _ _ _ _ Hmemo Hitems) as Hall.
  apply list_elem_of_lookup in Hin as [i Hi].
  destruct (Forall2_lookup_r _ _ _ _ _ Hall Hi) as ([k' y] & Hy & Hk & Hnone).
  simpl in *. subst k'.
  rewrite list_lookup_fmap in Hy.
  destruct (d !! i) as [[k' r]|] eqn:Hd; [|done].
  injection Hy as -> <-. exists r. split.
  - apply list_elem_of_lookup. eauto.
  - intros ->. rewrite Hnone in Hsome by done. done.
Qed.

End Revisit.

(** C4. [get_fields] terminates on every store, self-referential ones
    included: it never runs out of fuel, any fuel above the length of the
    longest field gives the same outcome, [fwrap] returns a value for
    every object (and the same one for any larger fuel), and [fwrap] on an
    object whose id is already in the memo returns [None] at once,
    leaving the memo as it was.  Hence an entry of a dict that refers
    back to the dict itself contributes nothing to its wrapped form. *)
Theorem get_fields_terminates (h : store) (root : value)
    (fields : list string) :
  get_fields h root fields ≠ OutOfFuel
  ∧ (∀ n, fields_fuel fields ≤ n →
       get_fields_aux h n root fields = get_fields h root fields)
  ∧ (∀ obj, ∃ v, fwrap h obj = Ok v)
  ∧ (∀ obj n, fwrap_fuel h obj ≤ n →
       ('(v, _) ← fwrap_aux h n obj ∅; Ok v) = fwrap h obj)
  ∧ (∀ n a memo, a ∈ memo →
       fwrap_aux h (S n) (VObj a) memo = Ok (VNone, memo))
  ∧ (∀ a d l k x,
       h !! a = Some (PDict d) →
       fwrap h (VObj a) = Ok (VDict [("fields", VPairs l)]) →
       (k, x) ∈ l → ∃ r, (k, r) ∈ d ∧ r ≠ RObj a).
Proof.
  split; [apply get_fields_returns|].
  split; [intros n; apply get_fields_fuel_irrelevant|].
  split; [apply fwrap_total|].
  split; [intros obj n; apply fwrap_fuel_irrelevant|].
  split; [|apply fwrap_drops_self_reference].
  intros n a memo Hin. rewrite fwrap_aux_unfold. simpl.
  by rewrite bool_decide_eq_true_2.
Qed.

(** On [ex_store] the root refers to itself under ["self"]: the
    projection returns, and the inner ["self"] entry is gone. *)
Lemma get_fields_terminates_witness :
  get_fields ex_store (VObj 0) ["self"; "self.self.name"] ≠ OutOfFuel
  ∧ get_fields_aux ex_store 100 (VObj 0) ["self"; "self.self.name"]
    = get_fields ex_store (VObj 0) ["self"; "self.self.name"]
  ∧ fwrap ex_store (VObj 0)
    = Ok (VDict
            [("fields",
              VPairs
                [("a", VDict [("fields",
                               VPairs [("b", VObj 2); ("c", VObj 3)])]);
                 ("name", VObj 4)])])
  ∧ fwrap_aux ex_store 1 (VObj 0) {[0]} = Ok (VNone, {[0]})
  ∧ ∃ r, ("name", r)
         ∈ [("a", RObj 1); ("name", RObj 4); ("self", RObj 0);
            ("nothing", RNone)]
         ∧ r ≠ RObj 0.
Proof.
  destruct (get_fields_terminates ex_store (VObj 0)
              ["self"; "self.self.name"])
    as (Hret & Hfuel & Htot & Hwrap & Hmemo & Hself).
  split; [exact Hret|].
  split; [apply Hfuel; vm_compute; lia|].
  split; [|split].
  - rewrite <- (Hwrap (VObj 0) 50) by (vm_compute; lia).
    vm_compute. reflexivity.
  - apply Hmemo. set_solver.
  - apply (Hself 0 _
             [("a", VDict [("fields",
                            VPairs [("b", VObj 2); ("c", VObj 3)])]);
              ("name", VObj 4)]
             "name" (VObj 4)).
    + reflexivity.
    + vm_compute. reflexivity.
    + right. left.
Defined.

(** C9. The pruned spec can be [None] although the field list is
    non-empty and valid: whenever the merged mapping is non-empty and all
    its values are [None], the final wrap filters every entry away and
    [get_fields] returns [None] next to the usual prefetch set.  This
    happens on [ex_empty_store] for a field holding [None], for a
    relation whose entries all filter away, and below a prefix, whose
    name still reaches the prefetch set. *)
Theorem get_fields_none_spec :
  (∀ h root fields prefetch ret,
     get_fields_merged h (get_fields h) root fields = Ok (prefetch, ret) →
     ret ≠ [] → Forall (λ kv, kv.2 = VNone) ret →
     get_fields h root fields = Ok (prefetch, VNone))
  ∧ get_fields ex_empty_store (VObj 0) ["x"] = Ok (∅, VNone)
  ∧ get_fields ex_empty_store (VObj 0) ["r"; "x"] = Ok (∅, VNone)
  ∧ get_fields ex_empty_store (VObj 0) ["a.b"; "r"] = Ok ({["a"]}, VNone).
Proof.
  split; [|split; [|split]]; try (vm_compute; reflexivity).
  intros h root fields prefetch ret Hm Hne Hall.
  rewrite get_fields_closed_form, Hm. cbn [mbind outcome_bind].
  by rewrite final_wrap_all_none.
Qed.

Lemma get_fields_none_spec_witness :
  get_fields ex_empty_store (VObj 0) ["a.b"; "r"] = Ok ({["a"]}, VNone).
Proof.
  apply (proj1 get_fields_none_spec ex_empty_store (VObj 0) ["a.b"; "r"]
           {["a"]} [("r", VNone); ("a", VNone)]).
  - vm_compute. reflexivity.
  - done.
  - repeat constructor.
Defined.

(** C10. When the merged mapping has a truthy entry under the key
    ["fields"], [get_fields] returns that mapping itself, not wrapped in
    [{"fields": [...]}]; [fwrap] passes through every dict that is empty
    or has a truthy ["fields"] entry.  On [ex_fields_store], requesting
    the field called ["fields"] yields the merged mapping, whereas the
    same request without it is wrapped. *)
Theorem get_fields_fields_key :
  (∀ h root fields prefetch ret,
     get_fields_merged h (get_fields h) root fields = Ok (prefetch, ret) →
     truthy h (dict_get_default "fields" ret) = true →
     get_fields h root fields = Ok (prefetch, VDict ret))
  ∧ (∀ h obj d,
       as_dict h obj = Some d →
       is_nil d || truthy h (dict_get_default "fields" d) = true →
       fwrap h obj = Ok obj)
  ∧ get_fields ex_fields_store (VObj 0) ["fields"; "name"]
    = Ok (∅, VDict [("fields", VObj 1); ("name", VObj 2)])
  ∧ get_fields ex_fields_store (VObj 0) ["name"]
    = Ok (∅, VDict [("fields", VPairs [("name", VObj 2)])]).
Proof.
  split; [|split; [|split]]; try (vm_compute; reflexivity).
  - intros h root fields prefetch ret Hm Ht.
    rewrite get_fields_closed_form, Hm. cbn [mbind outcome_bind].
    unfold final_wrap. by rewrite Ht, orb_true_r.
  - intros h obj d Hd Hc. apply fwrap_passthrough.
    unfold passes. by rewrite Hd.
Qed.

Lemma get_fields_fields_key_witness :
  get_fields ex_fields_store (VObj 0) ["fields"; "name"]
  = Ok (∅, VDict [("fields", VObj 1); ("name", VObj 2)])
  ∧ fwrap ex_fields_store (VDict [("fields", VObj 1); ("name", VObj 2)])
    = Ok (VDict [("fields", VObj 1); ("name", VObj 2)]).
Proof.
  destruct get_fields_fields_key as (Hmerged & Hpass & _).
  split.
  - apply Hmerged; vm_compute; reflexivity.
  - eapply Hpass; vm_compute; reflexivity.
Defined.

(** ** Order of the requested paths *)



Section Order.
Context (h : store).







End Order.




(** ** Pagination *)

Section ListEndpoint.
Context {Row J : Type}.
Context (qs_filter : params → list Row → outcome (list Row)).
Context (qs_order_by : list string → list Row → outcome (list Row)).
Context (serialize : Row → dict → outcome J).

Lemma serialize_all_total (h : store) (config : value) (rows : list Row) :
  (∀ x, ∃ j, serialize_with serialize h config x = Ok j) →
  ∃ js, serialize_all serialize h config rows = Ok js
        ∧ length js = length rows.
Proof.
  intros Htot. induction rows as [|x rows (js & Hjs & Hlen)].
  - by exists [].
  - destruct (Htot x) as [j Hj]. exists (j :: js).
    simpl. rewrite Hj. simpl. rewrite Hjs. simpl. by rewrite Hlen.
Qed.

(** The list view on a request that carries at most a page number. *)
Lemma list_get_page_only (self : endpoint) (request : params)
    (page : Z) :
  filter_kwargs (delete "_" request) = ∅ →
  request !! "sort_by" = None →
  request !! "fields" = None →
  match request !! "page" with
  | Some s => py_int s = Some page
  | None => page = 1%Z
  end →
  list_get qs_filter qs_order_by serialize self request
  = data ← qs_filter ∅ (objects self);
    data ← qs_order_by [] data;
    data_page ← match paginate self data page with
                | Raise EmptyPage => Raise (HttpError 404 no_such_page)
                | r => r
                end;
    '(related, config) ←
      match get_fields (spec_store self) (serialize_config self)
                       (default_fields self) with
      | Raise (FieldKeyError field) =>
          Raise (HttpError 400 (invalid_field_path field))
      | Raise (KeyError k) =>
          Raise (HttpError 400 (invalid_field (key_error_str k)))
      | r => r
      end;
    results ← serialize_all serialize (spec_store self) config
                (object_list data_page);
    Ok (Http200
          (ListBody
             (Meta (length (object_list data_page)) page (per_page self)
                   (end_index data_page) (length data))
             results)
          "*").
Proof.
  intros Hkw Hsort Hfields Hpage.
  assert (delete "page" (delete "_" request) !! "sort_by" = None) as Hs.
  { by rewrite !lookup_delete_ne. }
  assert (delete "sort_by" (delete "page" (delete "_" request)) !! "fields"
          = None) as Hf.
  { by rewrite !lookup_delete_ne. }
  unfold list_get, cachebusterable, list_get_raw, pop_param.
  unfold filter_kwargs in Hkw.
  rewrite Hs, Hf, Hkw. unfold filter_data, adjust_filters, sort_data.
  unfold prefetch_related. rewrite !lookup_empty. simpl.
  rewrite lookup_delete_ne by done.
  destruct (request !! "page") as [s|]; [by rewrite Hpage|].
  by subst.
Qed.

End ListEndpoint.

Lemma paginator_page_empty {Row} (data : list Row) (per_page : nat)
    (n : Z) :
  (n < 1 ∨ Z.of_nat (num_pages (length data) per_page) < n)%Z →
  paginator_page data per_page n = Raise EmptyPage.
Proof.
  intros Hout. unfold paginator_page.
  destruct (Z.ltb_spec n 1); [done|].
  destruct (Z.ltb_spec (Z.of_nat (num_pages (length data) per_page)) n);
    [done|lia].
Qed.

Lemma paginator_page_in_range {Row} (data : list Row) (per_page : nat)
    (n : Z) :
  (1 ≤ n ≤ Z.of_nat (num_pages (length data) per_page))%Z →
  ∃ p, paginator_page data per_page n = Ok p
       ∧ length (object_list p)
         = Nat.min per_page (length data - (Z.to_nat n - 1) * per_page)
       ∧ end_index p
         = (if (n =? Z.of_nat (num_pages (length data) per_page))%Z
            then length data else Z.to_nat n * per_page).
Proof.
  intros [Hlo Hhi]. unfold paginator_page.
  destruct (Z.ltb_spec n 1); [lia|].
  destruct (Z.ltb_spec (Z.of_nat (num_pages (length data) per_page)) n);
    [lia|].
  eexists. split; [done|]. split; [|done]. simpl.
  rewrite length_take, length_drop.
  destruct (Nat.leb_spec (length data)
              ((Z.to_nat n - 1) * per_page + per_page)); lia.
Qed.

Section ListPages.
Context {Row J : Type}.
Context (qs_filter : params → list Row → outcome (list Row)).
Context (qs_order_by : list string → list Row → outcome (list Row)).
Context (serialize : Row → dict → outcome J).

(** The response to a request for page [n] alone, [n] being in range. *)
Lemma list_get_in_range (self : endpoint) (n : Z) (s : string)
    (filtered data : list Row) (related : gset string) (config : value) :
  qs_filter ∅ (objects self) = Ok filtered →
  qs_order_by [] filtered = Ok data →
  py_int s = Some n →
  (1 ≤ n ≤ Z.of_nat (num_pages (length data) (per_page self)))%Z →
  get_fields (spec_store self) (serialize_config self) (default_fields self)
  = Ok (related, config) →
  (∀ x, ∃ j, serialize_with serialize (spec_store self) config x = Ok j) →
  ∃ results,
    list_get qs_filter qs_order_by serialize self {["page" := s]}
    = Ok (Http200
            (ListBody
               (Meta (Nat.min (per_page self)
                        (length data - (Z.to_nat n - 1) * per_page self))
                     n (per_page self)
                     (if (n =? Z.of_nat (num_pages (length data)
                                           (per_page self)))%Z
                      then length data else Z.to_nat n * per_page self)
                     (length data))
               results)
            "*")
    ∧ length results
      = Nat.min (per_page self)
          (length data - (Z.to_nat n - 1) * per_page self).
Proof.
  intros Hfilter Hsort Hs Hn Hfields Hser.
  rewrite (list_get_page_only _ _ _ _ _ n);
    [|by vm_compute|done|done|by rewrite lookup_singleton_eq].
  rewrite Hfilter. cbn [mbind outcome_bind].
  rewrite Hsort. cbn [mbind outcome_bind]. unfold paginate.
  destruct (paginator_page_in_range data (per_page self) n Hn)
    as (p & -> & Hlen & Hend).
  cbn [mbind outcome_bind]. rewrite Hfields. cbn [mbind outcome_bind].
  destruct (serialize_all_total serialize (spec_store self) config
              (object_list p) Hser) as (js & -> & Hjs).
  cbn [mbind outcome_bind]. exists js.
  rewrite Hlen, Hend in *. done.
Qed.

Lemma list_get_out_of_range (self : endpoint) (n : Z) (s : string)
    (filtered data : list Row) :
  qs_filter ∅ (objects self) = Ok filtered →
  qs_order_by [] filtered = Ok data →
  py_int s = Some n →
  (n < 1 ∨ Z.of_nat (num_pages (length data) (per_page self)) < n)%Z →
  list_get qs_filter qs_order_by serialize self {["page" := s]}
  = Raise (HttpError 404 no_such_page).
Proof.
  intros Hfilter Hsort Hs Hn.
  rewrite (list_get_page_only _ _ _ _ _ n);
    [|by vm_compute|done|done|by rewrite lookup_singleton_eq].
  rewrite Hfilter. cbn [mbind outcome_bind].
  rewrite Hsort. cbn [mbind outcome_bind]. unfold paginate.
  by rewrite paginator_page_empty.
Qed.

End ListPages.

(** C6. With pages of 100 and 250 rows left after filtering and sorting,
    the list view answers page 1 with the meta [{count: 100, page: 1,
    per_page: 100, max_page: 100, total_count: 250}], page 3 with
    [count: 50] and [max_page: 250], and page 4 with the 404 error
    "No such page"; [max_page] is the index of the last row of the page
    within the whole result.  (The collaborators are assumed not to raise
    on this request: [filter] without parameters, [order_by] without
    keys, the projection of the default fields and the serializer.) *)
Theorem list_get_pagination {Row J : Type}
    (qs_filter : params → list Row → outcome (list Row))
    (qs_order_by : list string → list Row → outcome (list Row))
    (serialize : Row → dict → outcome J)
    (self : endpoint) (filtered data : list Row)
    (related : gset string) (config : value) :
  per_page self = 100 →
  qs_filter ∅ (objects self) = Ok filtered →
  qs_order_by [] filtered = Ok data →
  length data = 250 →
  get_fields (spec_store self) (serialize_config self) (default_fields self)
  = Ok (related, config) →
  (∀ x, ∃ j, serialize_with serialize (spec_store self) config x = Ok j) →
  (∃ results,
     list_get qs_filter qs_order_by serialize self {["page" := "1"]}
     = Ok (Http200 (ListBody (Meta 100 1 100 100 250) results) "*")
     ∧ length results = 100)
  ∧ (∃ results,
       list_get qs_filter qs_order_by serialize self {["page" := "3"]}
       = Ok (Http200 (ListBody (Meta 50 3 100 250 250) results) "*")
       ∧ length results = 50)
  ∧ list_get qs_filter qs_order_by serialize self {["page" := "4"]}
    = Raise (HttpError 404 no_such_page).
Proof.
  intros Hpp Hfilter Hsort Hlen Hfields Hser. split; [|split].
  - destruct (list_get_in_range qs_filter qs_order_by serialize self 1 "1"
                filtered data related config)
      as (results & Hget & Hres); try done.
    { rewrite Hpp, Hlen. by vm_compute. }
    rewrite Hpp, Hlen in Hget, Hres. by exists results.
  - destruct (list_get_in_range qs_filter qs_order_by serialize self 3 "3"
                filtered data related config)
      as (results & Hget & Hres); try done.
    { rewrite Hpp, Hlen. by vm_compute. }
    rewrite Hpp, Hlen in Hget, Hres. by exists results.
  - apply (list_get_out_of_range _ _ _ _ 4 "4" filtered data); try done.
    rewrite Hpp, Hlen. right. by vm_compute.
Qed.

Lemma list_get_pagination_witness :
  (∃ results,
     list_get demo_filter demo_order_by demo_serialize demo_list_endpoint
       {["page" := "1"]}
     = Ok (Http200 (ListBody (Meta 100 1 100 100 250) results) "*")
     ∧ length results = 100)
  ∧ (∃ results,
       list_get demo_filter demo_order_by demo_serialize demo_list_endpoint
         {["page" := "3"]}
       = Ok (Http200 (ListBody (Meta 50 3 100 250 250) results) "*")
       ∧ length results = 50)
  ∧ list_get demo_filter demo_order_by demo_serialize demo_list_endpoint
      {["page" := "4"]}
    = Raise (HttpError 404 no_such_page).
Proof.
  apply (list_get_pagination demo_filter demo_order_by demo_serialize
           demo_list_endpoint (seq 0 250) (seq 0 250) ∅ (VDict [])).
  - reflexivity.
  - reflexivity.
  - reflexivity.
  - reflexivity.
  - vm_compute. reflexivity.
  - intros x. eexists. reflexivity.
Defined.

(** ** The cache-buster parameter *)

(** C7. The ["_"] parameter is removed before the list view does
    anything else: a request with ["_"] set to any value is answered
    exactly as the same request without it (so [{"_": "12345", "status":
    "active"}] is processed as [{"status": "active"}]), and the filter
    step is never handed a ["_"] entry: two filter functions that agree
    on all parameter sets without ["_"] give the same response. *)
Theorem cachebuster_never_filtered {Row J : Type}
    (qs_order_by : list string → list Row → outcome (list Row))
    (serialize : Row → dict → outcome J)
    (self : endpoint) :
  (∀ qs_filter request v,
     list_get qs_filter qs_order_by serialize self (<["_" := v]> request)
     = list_get qs_filter qs_order_by serialize self request)
  ∧ (∀ qs_filter,
       list_get qs_filter qs_order_by serialize self
         {["_" := "12345"; "status" := "active"]}
       = list_get qs_filter qs_order_by serialize self
           {["status" := "active"]})
  ∧ (∀ f1 f2 request,
       (∀ kwargs data, kwargs !! "_" = None → f1 kwargs data = f2 kwargs data) →
       list_get f1 qs_order_by serialize self request
       = list_get f2 qs_order_by serialize self request).
Proof.
  assert (∀ qs_filter request v,
            list_get qs_filter qs_order_by serialize self
              (<["_" := v]> request)
            = list_get qs_filter qs_order_by serialize self request) as Hdrop.
  { intros qs_filter request v. unfold list_get, cachebusterable.
    by rewrite delete_insert_eq. }
  split; [exact Hdrop|]. split; [intros; apply Hdrop|].
  intros f1 f2 request Hagree.
  unfold list_get, cachebusterable, list_get_raw, pop_param, filter_data,
    adjust_filters.
  rewrite (Hagree (delete "fields"
                     (delete "sort_by" (delete "page" (delete "_" request))))).
  - done.
  - rewrite !lookup_delete_ne by done. apply lookup_delete_eq.
Qed.

Lemma cachebuster_never_filtered_witness :
  list_get demo_filter demo_order_by demo_serialize demo_endpoint
    {["_" := "12345"; "page" := "1"]}
  = list_get demo_filter demo_order_by demo_serialize demo_endpoint
      {["page" := "1"]}
  ∧ list_get demo_filter demo_order_by demo_serialize demo_endpoint
      {["_" := "12345"; "page" := "1"]}
    = list_get demo_leaky_filter demo_order_by demo_serialize demo_endpoint
        {["_" := "12345"; "page" := "1"]}.
Proof.
  destruct (cachebuster_never_filtered demo_order_by demo_serialize
              demo_endpoint) as (Hdrop & _ & Hagree).
  split; [apply Hdrop|]. apply Hagree.
  intros kwargs data Hnone. unfold demo_leaky_filter. by rewrite Hnone.
Defined.

(** ** Invalid fields on the detail view *)

(** C8 (what the code does). On a detail request whose [fields]
    parameter names the unknown field ["bogus"], [FieldKeyError] leaves
    [PublicDetailEndpoint.get] as it was raised: no [HttpError] with
    status 400 is produced, whereas the list view turns the same error
    into a 400 naming the field. *)
Theorem detail_get_invalid_field_uncaught :
  detail_get demo_get demo_serialize demo_endpoint "0"
    {["fields" := "bogus"]}
  = Raise (FieldKeyError "bogus")
  ∧ detail_get demo_get demo_serialize demo_endpoint "0"
      {["fields" := "name,a.bogus"]}
    = Raise (FieldKeyError "a.bogus")
  ∧ list_get demo_filter demo_order_by demo_serialize demo_endpoint
      {["fields" := "bogus"]}
    = Raise (HttpError 400 (invalid_field_path "bogus"))
  ∧ detail_get demo_get demo_serialize demo_endpoint "0"
      {["fields" := "name,a.b"]}
    = Ok (Http200 (10, ["fields"]) "*").
Proof. split; [|split; [|split]]; vm_compute; reflexivity. Qed.

(** ** Splitting strings *)

Lemma split_dot_has_char (s : string) :
  split_dot s = None ↔ has_char "." s = false.
Proof.
  induction s as [|c s IH]; [done|]. simpl.
  destruct (Ascii.eqb c "."); [done|]. simpl.
  destruct (split_dot s) as [[p q]|]; [|tauto].
  split; [done|]. intros Hf. by apply IH in Hf.
Qed.

Lemma split_dot_inv (s p q : string) :
  split_dot s = Some (p, q) → s = dotted p q ∧ nodot p.
Proof.
  unfold nodot, dotted. revert p q.
  induction s as [|c s IH]; intros p q; [done|]. simpl.
  destruct (Ascii.eqb_spec c ".") as [->|Hc].
  - by intros [= <- <-].
  - destruct (split_dot s) as [[p' q']|]; [|done].
    intros [= <- <-]. destruct (IH _ _ eq_refl) as [-> Hp].
    split; [done|]. simpl. rewrite Hp.
    by destruct (Ascii.eqb_spec c ".").
Qed.

(** X1. [field.split(".", 1)] cuts at the first dot and loses nothing: a
    field splits into [(prefix, postfix)] exactly when it is
    [prefix.postfix] with no dot in [prefix]; and a field is concrete
    (does not split) exactly when ['.' in field] is false. *)
Theorem split_dot_spec :
  (∀ s p q, split_dot s = Some (p, q) ↔ s = dotted p q ∧ nodot p)
  ∧ (∀ s, nodot s ↔ has_char "." s = false).
Proof.
  split.
  - intros s p q. split; [apply split_dot_inv|].
    intros [-> Hp]. by apply split_dot_dotted.
  - intros s. apply split_dot_has_char.
Qed.

Lemma split_comma_nonempty (s : string) : split_comma s ≠ [].
Proof.
  destruct s as [|c s]; [done|]. simpl.
  destruct (Ascii.eqb c ","); [done|]. by destruct (split_comma s).
Qed.

Lemma join_comma_cons_char (c : ascii) (x : string) (xs : list string) :
  join_comma (String c x :: xs) = String c (join_comma (x :: xs)).
Proof. by destruct xs. Qed.

Lemma join_split_comma (s : string) : join_comma (split_comma s) = s.
Proof.
  induction s as [|c s IH]; [done|]. simpl.
  destruct (Ascii.eqb_spec c ",") as [->|Hc].
  - pose proof (split_comma_nonempty s) as Hne.
    destruct (split_comma s) as [|x xs]; [done|].
    change (join_comma (EmptyString :: x :: xs))
      with (String "," (join_comma (x :: xs))).
    by rewrite IH.
  - pose proof (split_comma_nonempty s) as Hne.
    destruct (split_comma s) as [|x xs]; [done|].
    by rewrite join_comma_cons_char, IH.
Qed.

Lemma split_comma_pieces (s : string) :
  Forall (λ x, has_char "," x = false) (split_comma s).
Proof.
  induction s as [|c s IH]; [by repeat constructor|]. simpl.
  destruct (Ascii.eqb_spec c ",") as [->|Hc].
  - by constructor.
  - pose proof (split_comma_nonempty s) as Hne.
    destruct (split_comma s) as [|x xs]; [done|].
    apply Forall_cons in IH as [Hx Hxs]. constructor; [|done].
    simpl. rewrite Hx. by destruct (Ascii.eqb_spec c ",").
Qed.

Lemma split_comma_nocomma (x : string) :
  has_char "," x = false → split_comma x = [x].
Proof.
  induction x as [|c x IH]; [done|]. simpl.
  destruct (Ascii.eqb c ","); [done|]. simpl. intros Hx.
  by rewrite IH.
Qed.

Lemma split_comma_app_nocomma (x s : string) :
  has_char "," x = false →
  split_comma (x +:+ "," +:+ s) = x :: split_comma s.
Proof.
  induction x as [|c x IH]; [done|]. simpl.
  destruct (Ascii.eqb c ","); [done|]. simpl. intros Hx.
  by rewrite IH.
Qed.

Lemma split_join_comma (l : list string) :
  l ≠ [] → Forall (λ x, has_char "," x = false) l →
  split_comma (join_comma l) = l.
Proof.
  intros Hne Hall. induction Hall as [|x xs Hx Hxs IH]; [done|].
  destruct xs as [|y ys].
  - simpl. by apply split_comma_nocomma.
  - change (join_comma (x :: y :: ys))
      with (x +:+ "," +:+ join_comma (y :: ys)).
    rewrite split_comma_app_nocomma by done. by rewrite IH.
Qed.

(** X2. [s.split(",")], used for the [sort_by] and [fields] parameters,
    never returns an empty list, returns pieces without commas, and
    joining the pieces with commas gives [s] back; conversely a non-empty
    list of comma-free names is recovered from its comma-joined
    spelling. *)
Theorem split_comma_round_trip :
  (∀ s, split_comma s ≠ []
        ∧ Forall (λ x, has_char "," x = false) (split_comma s)
        ∧ join_comma (split_comma s) = s)
  ∧ (∀ l, l ≠ [] → Forall (λ x, has_char "," x = false) l →
          split_comma (join_comma l) = l).
Proof.
  split.
  - intros s. split; [apply split_comma_nonempty|].
    split; [apply split_comma_pieces|apply join_split_comma].
  - apply split_join_comma.
Qed.

Lemma split_comma_round_trip_witness :
  split_comma (join_comma ["name"; "a.b"; "-created_at"])
  = ["name"; "a.b"; "-created_at"].
Proof.
  apply (proj2 split_comma_round_trip); [done|].
  repeat constructor.
Defined.

(** ** Grouping the requested fields *)

Lemma partition_fields_snoc (fields : list string) (f : string) :
  partition_fields (fields ++ [f]) = classify (partition_fields fields) f.
Proof. unfold partition_fields. by rewrite fold_left_app. Qed.

Lemma group_add_keys (key post : string) (g : list (string * list string)) :
  (group_add key post g).*1
  = if bool_decide (key ∈ g.*1) then g.*1 else g.*1 ++ [key].
Proof.
  induction g as [|[k ps] g IH]; [done|]. cbn [group_add].
  destruct (String.eqb_spec k key) as [->|Hne]; rewrite !fmap_cons;
    cbn [fst].
  - rewrite bool_decide_eq_true_2; [done|left].
  - rewrite IH. destruct (decide (key ∈ g.*1)) as [Hin|Hnin].
    + rewrite !bool_decide_eq_true_2; [done|by right|done].
    + rewrite !bool_decide_eq_false_2; [done| |done].
      intros [?|?]%elem_of_cons; congruence.
Qed.

Lemma group_add_NoDup (key post : string) (g : list (string * list string)) :
  NoDup g.*1 → NoDup (group_add key post g).*1.
Proof.
  intros Hnd. rewrite group_add_keys. case_bool_decide; [done|].
  apply NoDup_app. split; [done|]. split; [|apply NoDup_singleton].
  intros x Hx [->|[]%elem_of_nil]%elem_of_cons. done.
Qed.

Lemma group_add_get (key post k : string) (g : list (string * list string)) :
  dict_get k (group_add key post g)
  = if String.eqb key k
    then Some (default [] (dict_get key g) ++ [post])
    else dict_get k g.
Proof.
  induction g as [|[k' ps] g IH]; simpl.
  - by destruct (String.eqb key k).
  - destruct (String.eqb_spec k' key) as [->|Hne]; simpl.
    + by destruct (String.eqb key k).
    + rewrite IH. destruct (String.eqb_spec key k) as [->|Hne'].
      * by rewrite (proj2 (String.eqb_neq k' k) Hne).
      * done.
Qed.

Lemma postfixes_snoc (key : string) (fields : list string) (f : string) :
  postfixes key (fields ++ [f])
  = postfixes key fields
    ++ match split_dot f with
       | Some (p, q) => if String.eqb p key then [q] else []
       | None => []
       end.
Proof.
  unfold postfixes. rewrite omap_app. f_equal. simpl.
  destruct (split_dot f) as [[p q]|]; [|done].
  by destruct (String.eqb p key).
Qed.

Lemma partition_fields_char (fields : list string) :
  (partition_fields fields).1 = List.filter is_concrete fields
  ∧ NoDup (partition_fields fields).2.*1
  ∧ ∀ key, dict_get key (partition_fields fields).2
           = match postfixes key fields with
             | [] => None
             | rest => Some rest
             end.
Proof.
  induction fields as [|f fields (Hc & Hnd & Hg)] using rev_ind.
  - split; [done|]. split; [constructor|done].
  - rewrite partition_fields_snoc. unfold classify.
    rewrite List.filter_app. simpl. unfold is_concrete at 2.
    destruct (split_dot f) as [[p q]|] eqn:Hf; simpl.
    + split; [by rewrite app_nil_r|]. split; [by apply group_add_NoDup|].
      intros key. rewrite group_add_get, postfixes_snoc, Hf, !Hg.
      destruct (String.eqb_spec p key) as [->|Hne].
      * destruct (postfixes key fields); simpl; [done|].
        by destruct (_ ++ _) eqn:E; [apply app_eq_nil in E as [_ [=]]|].
      * by rewrite app_nil_r.
    + split; [by rewrite Hc|]. split; [done|].
      intros key. by rewrite postfixes_snoc, Hf, app_nil_r.
Qed.

(** X3. The first loop of [get_fields] sorts the request faithfully: the
    concrete fields are the un-dotted ones in request order, no prefix
    gets two groups, and the group of a prefix holds exactly the
    remainders of the fields carrying that prefix, in request order (a
    prefix has a group only if some field carries it). *)
Theorem partition_fields_spec (fields : list string) :
  (partition_fields fields).1 = List.filter is_concrete fields
  ∧ NoDup (partition_fields fields).2.*1
  ∧ ∀ key, dict_get key (partition_fields fields).2
           = match postfixes key fields with
             | [] => None
             | rest => Some rest
             end.
Proof. apply partition_fields_char. Qed.

Lemma dict_get_elem {V} (k : string) (v : V) (d : list (string * V)) :
  dict_get k d = Some v → (k, v) ∈ d.
Proof.
  induction d as [|[k' v'] d IH]; [done|]. simpl.
  destruct (String.eqb_spec k' k) as [->|Hne].
  - intros [= ->]. left.
  - intros Hg. right. by apply IH.
Qed.

Lemma dict_get_NoDup {V} (k : string) (v : V) (d : list (string * V)) :
  NoDup d.*1 → (k, v) ∈ d → dict_get k d = Some v.
Proof.
  induction d as [|[k' v'] d IH]; intros Hnd Hin.
  - by apply elem_of_nil in Hin.
  - rewrite fmap_cons in Hnd. apply NoDup_cons in Hnd as [Hk Hnd].
    simpl. destruct (String.eqb_spec k' k) as [->|Hne].
    + apply elem_of_cons in Hin as [[= ->]|Hin]; [done|].
      exfalso. apply Hk. apply list_elem_of_fmap. by exists (k, v).
    + apply elem_of_cons in Hin as [[= -> ->]|Hin]; [done|]. by apply IH.
Qed.

Lemma dict_get_None {V} (k : string) (d : list (string * V)) :
  dict_get k d = None ↔ k ∉ d.*1.
Proof.
  induction d as [|[k' v'] d IH]; simpl.
  - split; [intros _ Hin; by apply elem_of_nil in Hin|done].
  - rewrite not_elem_of_cons. destruct (String.eqb_spec k' k) as [->|Hne].
    + split; [done|]. by intros [? _].
    + rewrite IH. split; [by intros ?; split|by intros [_ ?]].
Qed.

Lemma postfixes_elem (key post : string) (fields : list string) :
  post ∈ postfixes key fields ↔ dotted key post ∈ fields ∧ nodot key.
Proof.
  unfold postfixes. rewrite list_elem_of_omap. split.
  - intros (f & Hin & Hf). destruct (split_dot f) as [[p q]|] eqn:Hs; [|done].
    destruct (String.eqb_spec p key) as [->|]; [|done].
    injection Hf as ->. apply split_dot_inv in Hs as [-> Hp]. done.
  - intros [Hin Hkey]. exists (dotted key post). split; [done|].
    by rewrite split_dot_dotted, String.eqb_refl.
Qed.

(** What the partition holds, by membership. *)
Lemma partition_fields_concrete_elem (fields : list string) (x : string) :
  x ∈ (partition_fields fields).1 ↔ x ∈ fields ∧ nodot x.
Proof.
  destruct (partition_fields_char fields) as (-> & _).
  rewrite list_elem_of_In, filter_In, <- list_elem_of_In.
  unfold is_concrete, nodot. destruct (split_dot x); naive_solver.
Qed.

Lemma partition_fields_group_elem (fields : list string) (key : string)
    (rest : list string) :
  (key, rest) ∈ (partition_fields fields).2 ↔
  rest = postfixes key fields ∧ rest ≠ [].
Proof.
  destruct (partition_fields_char fields) as (_ & Hnd & Hget). split.
  - intros Hin. apply (dict_get_NoDup _ _ _ Hnd) in Hin.
    rewrite Hget in Hin. by destruct (postfixes key fields); simplify_eq.
  - intros [-> Hne]. apply dict_get_elem. rewrite Hget.
    by destruct (postfixes key fields).
Qed.

Lemma partition_fields_nonempty (fields : list string) :
  fields ≠ [] →
  (partition_fields fields).1 ≠ [] ∨ (partition_fields fields).2 ≠ [].
Proof.
  destruct fields as [|f fields]; [done|]. intros _.
  destruct (split_dot f) as [[p q]|] eqn:Hs.
  - right. intros Hnil.
    assert ((p, postfixes p (f :: fields)) ∈ (partition_fields (f :: fields)).2)
      as Hin.
    { apply partition_fields_group_elem. split; [done|].
      unfold postfixes. simpl. by rewrite Hs, String.eqb_refl. }
    rewrite Hnil in Hin. by apply elem_of_nil in Hin.
  - left. intros Hnil.
    assert (f ∈ (partition_fields (f :: fields)).1) as Hin.
    { apply partition_fields_concrete_elem. split; [left|done]. }
    rewrite Hnil in Hin. by apply elem_of_nil in Hin.
Qed.

(** ** Requests that cannot be answered *)

Section Failures.
Context (h : store).

Lemma get_fields_nil (root : value) : get_fields h root [] = Ok (∅, VDict []).
Proof. by rewrite get_fields_closed_form. Qed.

Lemma get_fields_not_subscriptable (root : value) (fields : list string) :
  as_dict h root = None → fields ≠ [] →
  get_fields h root fields = Raise TypeError.
Proof.
  intros Hd Hne. rewrite get_fields_unfold.
  unfold get_fields_step, get_fields_merged.
  destruct (partition_fields_nonempty fields Hne) as [Hc|Hg];
    destruct (partition_fields fields) as [[|x xs] groups]; simpl in *;
    try done.
  - unfold getitem. by rewrite Hd.
  - destruct groups as [|[key rest] groups]; [done|].
    simpl. unfold getitem. by rewrite Hd.
  - unfold getitem. by rewrite Hd.
Qed.

Lemma get_fields_below_path (segs : list string) (f : string)
    (root node : value) (e : exn) :
  Forall nodot segs →
  walk h root segs = Some node →
  get_fields h node [f] = Raise e →
  get_fields h root [dotted_path segs f] = Raise (qualified segs e).
Proof.
  intros Hsegs. revert root.
  induction Hsegs as [|s segs Hs Hsegs IH]; intros root Hwalk Hget.
  - injection Hwalk as ->. simpl. rewrite Hget. by destruct e.
  - simpl in Hwalk.
    destruct (getitem h root s) as [node1| |] eqn:Hitem; try done.
    rewrite get_fields_unfold.
    unfold get_fields_step, get_fields_merged. simpl.
    rewrite partition_fields_compound1 by done.
    simpl. rewrite Hitem. simpl.
    rewrite (IH node1 Hwalk Hget). by destruct e.
Qed.

End Failures.

(** X4. Requesting no field at all never touches [root]: the result is
    the empty prefetch set and the empty dict, whatever [root] is.  With
    at least one field, a [root] that is not a dict cannot be subscripted
    and the call ends in a [TypeError], which no handler of the views
    catches. *)
Theorem get_fields_root_not_a_dict (h : store) (root : value) :
  get_fields h root [] = Ok (∅, VDict [])
  ∧ (∀ fields, as_dict h root = None → fields ≠ [] →
       get_fields h root fields = Raise TypeError).
Proof.
  split; [apply get_fields_nil|apply get_fields_not_subscriptable].
Qed.

Lemma get_fields_root_not_a_dict_witness :
  get_fields ex_store (VObj 2) [] = Ok (∅, VDict [])
  ∧ get_fields ex_store (VObj 2) ["x"; "y.z"] = Raise TypeError.
Proof.
  destruct (get_fields_root_not_a_dict ex_store (VObj 2)) as [Hnil Hty].
  split; [exact Hnil|]. apply Hty; [reflexivity|done].
Defined.

(** X5. An exception raised for the remainder of a path surfaces from the
    outermost call with only [FieldKeyError] rewritten to the full dotted
    path; [KeyError] and [TypeError] come out as they were raised.  So a
    prefix [p] missing below the valid path [segs] is reported as the
    bare [KeyError p], and a path that continues below a value that is
    not a dict ends in a [TypeError]. *)
Theorem get_fields_error_below_path (h : store) (segs : list string)
    (root node : value) :
  Forall nodot segs →
  walk h root segs = Some node →
  (∀ f e, get_fields h node [f] = Raise e →
          get_fields h root [dotted_path segs f] = Raise (qualified segs e))
  ∧ (∀ d p rest, as_dict h node = Some d → dict_get p d = None → nodot p →
       get_fields h root [dotted_path segs (dotted p rest)]
       = Raise (KeyError p))
  ∧ (∀ f, as_dict h node = None →
       get_fields h root [dotted_path segs f] = Raise TypeError).
Proof.
  intros Hsegs Hwalk. split; [|split].
  - intros f e. by apply get_fields_below_path.
  - intros d p rest Hd Hp Hnodot.
    apply (get_fields_below_path h segs _ root node (KeyError p)); try done.
    rewrite get_fields_unfold. unfold get_fields_step, get_fields_merged.
    rewrite partition_fields_compound1 by done. simpl.
    unfold getitem. by rewrite Hd, Hp.
  - intros f Hd.
    apply (get_fields_below_path h segs _ root node TypeError); try done.
    by apply get_fields_not_subscriptable.
Qed.

Lemma get_fields_error_below_path_witness :
  get_fields ex_store (VObj 0) ["self.a.p.x"] = Raise (KeyError "p")
  ∧ get_fields ex_store (VObj 0) ["self.a.b.x"] = Raise TypeError
  ∧ get_fields ex_store (VObj 0) ["self.a.bogus"]
    = Raise (FieldKeyError "self.a.bogus").
Proof.
  destruct (get_fields_error_below_path ex_store ["self"; "a"] (VObj 0)
              (VObj 1)) as (Hany & Hkey & _);
    [repeat constructor|reflexivity|].
  destruct (get_fields_error_below_path ex_store ["self"; "a"; "b"] (VObj 0)
              (VObj 2)) as (_ & _ & Hty);
    [repeat constructor|reflexivity|].
  split; [|split].
  - eapply (Hkey _ "p" "x"); reflexivity.
  - apply (Hty "x"). reflexivity.
  - apply (Hany "bogus" (FieldKeyError "bogus")). vm_compute. reflexivity.
Defined.

(** ** Induction along the recursive calls *)

(** To prove [P] for a call, one may assume it for the calls made for its
    groups. *)
Lemma get_fields_ind (P : value → list string → Prop) :
  (∀ root fields,
     (∀ key rest node, (key, rest) ∈ (partition_fields fields).2 →
                       P node rest) →
     P root fields) →
  ∀ root fields, P root fields.
Proof.
  intros Hstep root fields.
  remember (list_max (String.length <$> fields)) as m eqn:Hm.
  revert root fields Hm.
  induction (lt_wf m) as [m _ IH]. intros root fields ->.
  apply Hstep. intros key rest node Hin.
  pose proof (partition_fields_bound fields) as Hb.
  rewrite Forall_forall in Hb. specialize (Hb _ Hin). simpl in Hb.
  by eapply IH.
Qed.

Section Outcomes.
Context (h : store).

Lemma build_concrete_raises (root : value) (concrete : list string)
    (ret : dict) (e : exn) :
  build_concrete h root concrete ret = Raise e →
  e = TypeError ∨ ∃ x, x ∈ concrete ∧ e = KeyError x.
Proof.
  revert ret. induction concrete as [|x xs IH]; intros ret; [done|].
  simpl. unfold getitem.
  destruct (as_dict h root) as [d|]; [|intros [= <-]; by left].
  destruct (dict_get x d) as [y|].
  - simpl. destruct (fwrap_total h y) as [v ->]. simpl.
    intros Hr. destruct (IH _ Hr) as [?|(x' & ? & ?)]; [by left|].
    right. exists x'. split; [by right|done].
  - intros [= <-]. right. exists x. split; [left|done].
Qed.

Lemma build_concrete_ok_iff (root : value) (concrete : list string)
    (ret : dict) :
  (∃ ret', build_concrete h root concrete ret = Ok ret')
  ↔ Forall (λ x, ∃ v, getitem h root x = Ok v) concrete.
Proof.
  revert ret. induction concrete as [|x xs IH]; intros ret.
  - split; [constructor|by eexists].
  - simpl. rewrite Forall_cons.
    destruct (getitem h root x) as [y| |]; simpl.
    + destruct (fwrap_total h y) as [v ->]. simpl. rewrite IH.
      split; [by eauto|by intros [_ ?]].
    + split; [by intros [? ?]|by intros [[? ?] _]].
    + split; [by intros [? ?]|by intros [[? ?] _]].
Qed.

Lemma subfields_loop_raises
    (rec : value → list string → outcome (gset string * value))
    (root : value) (groups : list (string * list string))
    (p : gset string) (r : dict) (e : exn) :
  subfields_loop h rec root groups p r = Raise e →
  ∃ key rest, (key, rest) ∈ groups
    ∧ (e = KeyError key ∨ e = TypeError
       ∨ ∃ node e', rec node rest = Raise e' ∧ e = qualified [key] e').
Proof.
  revert p r. induction groups as [|[key rest] groups IH]; intros p r;
    [done|].
  simpl. unfold getitem.
  destruct (as_dict h root) as [d|];
    [|intros [= <-]; exists key, rest; split; [left|by right; left]].
  destruct (dict_get key d) as [node|]; simpl;
    [|intros [= <-]; exists key, rest; split; [left|by left]].
  destruct (rec node rest) as [[q v]|e'|] eqn:Hrec; simpl.
  - intros Hr. destruct (IH _ _ Hr) as (k' & r' & Hin & Hcase).
    exists k', r'. split; [by right|done].
  - intros He. exists key, rest. split; [left|]. right; right.
    exists node, e'. split; [done|]. by destruct e'; injection He as <-.
  - done.
Qed.

Lemma subfields_loop_ok_iff
    (rec : value → list string → outcome (gset string * value))
    (root : value) (groups : list (string * list string))
    (p : gset string) (r : dict) :
  (∃ res, subfields_loop h rec root groups p r = Ok res)
  ↔ Forall (λ kr, ∃ node res, getitem h root kr.1 = Ok node
                              ∧ rec node kr.2 = Ok res) groups.
Proof.
  revert p r. induction groups as [|[key rest] groups IH]; intros p r.
  - split; [constructor|by eexists].
  - simpl. rewrite Forall_cons. simpl.
    destruct (getitem h root key) as [node|e|]; simpl.
    + destruct (rec node rest) as [[q v]|e|] eqn:Hrec; simpl.
      * rewrite IH. split; [by eauto 10|by intros [_ ?]].
      * split; [by destruct e; intros [? ?]|].
        intros [(n' & res & [= <-] & Hr) _]. congruence.
      * split; [by intros [? ?]|].
        intros [(n' & res & [= <-] & Hr) _]. congruence.
    + split; [by destruct e; intros [? ?]|by intros [(? & ? & ? & _) _]].
    + split; [by intros [? ?]|by intros [(? & ? & ? & _) _]].
Qed.

Lemma get_fields_explained (root : value) (fields : list string) (e : exn) :
  get_fields h root fields = Raise e → explained fields e.
Proof.
  revert e. pattern root, fields. revert root fields.
  apply get_fields_ind. intros root fields IH e.
  rewrite get_fields_unfold. unfold get_fields_step, get_fields_merged.
  pose proof (partition_fields_concrete_elem fields) as Hconc.
  pose proof (partition_fields_group_elem fields) as Hgrp.
  destruct (partition_fields fields) as [concrete subfields]. simpl in *.
  destruct (build_concrete h root concrete []) as [ret|e0|] eqn:Hc; simpl.
  - destruct (subfields_loop _ _ _ _ _ _) as [[p r]|e1|] eqn:Hl; simpl.
    + destruct (fwrap_total h (VDict r)) as [v ->]. done.
    + intros [= <-].
      apply subfields_loop_raises in Hl
        as (key & rest & Hin & [->|[->|(node & e' & Hrec & ->)]]).
      * destruct (proj1 (Hgrp key rest) Hin) as [-> Hne].
        destruct (postfixes key fields) as [|post ps] eqn:Hps; [done|].
        assert (post ∈ postfixes key fields) as Hpost
          by (rewrite Hps; left).
        apply postfixes_elem in Hpost as [Hf Hk].
        exists [], post. split; [constructor|]. by split.
      * done.
      * specialize (IH key rest node Hin e' Hrec).
        destruct (proj1 (Hgrp key rest) Hin) as [-> Hne].
        destruct e'; simpl in *; try done.
        -- by apply postfixes_elem in IH as [? ?].
        -- destruct IH as (segs & r' & Hsegs & Hk & Hin').
           apply postfixes_elem in Hin' as [Hf Hkey].
           exists (key :: segs), r'. split; [by constructor|]. by split.
    + done.
  - apply build_concrete_raises in Hc as [->|(x & Hx & ->)]; intros [= <-].
    + done.
    + simpl. by apply Hconc in Hx as [? _].
  - done.
Qed.

End Outcomes.

(** X6. Whatever [get_fields] raises is a [FieldKeyError], a [KeyError]
    or a [TypeError].  The field of a [FieldKeyError] is one of the
    requested fields, spelled as requested; the key of a [KeyError] is a
    prefix segment of a requested field, whose leading segments are
    lost. *)
Theorem get_fields_raises_only (h : store) (root : value)
    (fields : list string) (e : exn) :
  get_fields h root fields = Raise e → explained fields e.
Proof. apply get_fields_explained. Qed.

Lemma get_fields_raises_only_witness :
  "self.a.bogus" ∈ ["name"; "self.a.bogus"; "a.zzz"]
  ∧ explained ["name"; "self.a.p.x"] (KeyError "p").
Proof.
  split.
  - apply (get_fields_raises_only ex_store (VObj 0)
             ["name"; "self.a.bogus"; "a.zzz"]
             (FieldKeyError "self.a.bogus")).
    vm_compute. reflexivity.
  - apply (get_fields_raises_only ex_store (VObj 0) ["name"; "self.a.p.x"]).
    vm_compute. reflexivity.
Defined.

(** ** Which requests succeed *)

Lemma split_dots_unfold (s : string) :
  split_dots s
  = match split_dot s with
    | Some (p, q) => p :: split_dots q
    | None => [s]
    end.
Proof.
  induction s as [|c s IH]; [done|]. simpl.
  destruct (Ascii.eqb c "."); [done|]. rewrite IH.
  by destruct (split_dot s) as [[p q]|].
Qed.

Section Success.
Context (h : store).

Lemma resolves_concrete (root : value) (x : string) :
  nodot x → resolves h root x ↔ ∃ v, getitem h root x = Ok v.
Proof.
  unfold resolves, nodot. intros Hx. rewrite split_dots_unfold, Hx. simpl.
  destruct (getitem h root x) as [v| |]; split;
    try (by intros [? ?]); eauto.
Qed.

Lemma resolves_compound (root : value) (key post : string) :
  nodot key →
  resolves h root (dotted key post)
  ↔ ∃ node, getitem h root key = Ok node ∧ resolves h node post.
Proof.
  unfold resolves. intros Hkey.
  rewrite (split_dots_unfold (dotted key post)), split_dot_dotted by done.
  simpl. destruct (getitem h root key) as [v| |]; split;
    try (by intros [? ?]); try (by intros (? & ? & ?)); [by eauto|].
  by intros (node & [= <-] & ?).
Qed.

Lemma get_fields_succeeds_iff (root : value) (fields : list string) :
  (∃ res, get_fields h root fields = Ok res)
  ↔ Forall (resolves h root) fields.
Proof.
  pattern root, fields. revert root fields.
  apply get_fields_ind. intros root fields IH.
  rewrite get_fields_unfold. unfold get_fields_step, get_fields_merged.
  pose proof (partition_fields_concrete_elem fields) as Hconc.
  pose proof (partition_fields_group_elem fields) as Hgrp.
  destruct (partition_fields fields) as [concrete subfields]. simpl in *.
  rewrite Forall_forall. split.
  - intros [res Hres] field Hfield.
    destruct (build_concrete h root concrete []) as [ret|[]|] eqn:Hc;
      simpl in Hres; try done.
    destruct (subfields_loop _ _ _ _ _ _) as [[p r]| |] eqn:Hl;
      simpl in Hres; try done.
    destruct (split_dot field) as [[key post]|] eqn:Hs.
    + apply split_dot_inv in Hs as [-> Hkey].
      assert (post ∈ postfixes key fields) as Hpost
        by (by apply postfixes_elem).
      assert ((key, postfixes key fields) ∈ subfields) as Hin.
      { apply Hgrp. split; [done|]. intros Hnil. rewrite Hnil in Hpost.
        by apply elem_of_nil in Hpost. }
      assert (∃ res', subfields_loop h (get_fields h) root subfields ∅ ret
                      = Ok res') as Hok by eauto.
      apply subfields_loop_ok_iff in Hok. rewrite Forall_forall in Hok.
      destruct (Hok _ Hin) as (node & res' & Hnode & Hrec). simpl in *.
      apply resolves_compound; [done|]. exists node. split; [done|].
      assert (Forall (resolves h node) (postfixes key fields)) as Hall.
      { apply (IH key _ node Hin). eauto. }
      rewrite Forall_forall in Hall. by apply Hall.
    + apply resolves_concrete; [done|].
      assert (∃ ret', build_concrete h root concrete [] = Ok ret') as Hok
        by eauto.
      apply build_concrete_ok_iff in Hok. rewrite Forall_forall in Hok.
      apply Hok. by apply Hconc.
  - intros Hall.
    assert (∃ ret, build_concrete h root concrete [] = Ok ret) as [ret ->].
    { apply build_concrete_ok_iff, Forall_forall. intros x Hx.
      apply Hconc in Hx as [Hx Hnodot]. by apply resolves_concrete, Hall. }
    simpl.
    assert (∃ res, subfields_loop h (get_fields h) root subfields ∅ ret
                   = Ok res) as [[p r] ->].
    { apply subfields_loop_ok_iff, Forall_forall. intros [key rest] Hin.
      simpl. destruct (proj1 (Hgrp key rest) Hin) as [-> Hne].
      assert (∀ post, post ∈ postfixes key fields →
                ∃ node, getitem h root key = Ok node ∧ resolves h node post)
        as Hposts.
      { intros post Hpost. apply postfixes_elem in Hpost as [Hf Hkey].
        by apply resolves_compound, Hall. }
      destruct (postfixes key fields) as [|post ps] eqn:Hps; [done|].
      destruct (Hposts post ltac:(left)) as (node & Hnode & _).
      exists node.
      assert (∃ res, get_fields h node (post :: ps) = Ok res) as [res Hres].
      { apply (IH key _ node Hin), Forall_forall. intros post' Hpost'.
        destruct (Hposts post' Hpost') as (node' & Hnode' & Hres).
        congruence. }
      eauto. }
    simpl. destruct (fwrap_total h (VDict r)) as [v ->]. by eexists.
Qed.

End Success.

(** X7. [get_fields] returns a result exactly when every requested field
    resolves: each of its dot-separated segments is a key of the dict
    reached so far, starting from [root].  (The value under the last
    segment may be anything.) *)
Theorem get_fields_succeeds_iff_resolves (h : store) (root : value)
    (fields : list string) :
  (∃ res, get_fields h root fields = Ok res)
  ↔ Forall (resolves h root) fields.
Proof. apply get_fields_succeeds_iff. Qed.

(** ** The merged mapping and the pruned spec *)

Lemma dict_set_keys {V} (k : string) (v : V) (d : list (string * V)) :
  (dict_set k v d).*1
  = if bool_decide (k ∈ d.*1) then d.*1 else d.*1 ++ [k].
Proof.
  induction d as [|[k' v'] d IH]; [done|]. cbn [dict_set].
  destruct (String.eqb_spec k' k) as [->|Hne]; rewrite !fmap_cons;
    cbn [fst].
  - rewrite bool_decide_eq_true_2; [done|left].
  - rewrite IH. destruct (decide (k ∈ d.*1)) as [Hin|Hnin].
    + rewrite !bool_decide_eq_true_2; [done|by right|done].
    + rewrite !bool_decide_eq_false_2; [done| |done].
      intros [?|?]%elem_of_cons; congruence.
Qed.

Lemma dict_set_NoDup {V} (k : string) (v : V) (d : list (string * V)) :
  NoDup d.*1 → NoDup (dict_set k v d).*1.
Proof.
  intros Hnd. rewrite dict_set_keys. case_bool_decide; [done|].
  apply NoDup_app. split; [done|]. split; [|apply NoDup_singleton].
  intros x Hx [->|[]%elem_of_nil]%elem_of_cons. done.
Qed.

Lemma dict_set_key_elem {V} (k k' : string) (v : V) (d : list (string * V)) :
  k' ∈ (dict_set k v d).*1 ↔ k' = k ∨ k' ∈ d.*1.
Proof.
  rewrite dict_set_keys. case_bool_decide as Hin.
  - split; [by right|]. by intros [->|?].
  - rewrite elem_of_app, list_elem_of_singleton. tauto.
Qed.

Lemma dict_get_set {V} (k k' : string) (v : V) (d : list (string * V)) :
  dict_get k' (dict_set k v d)
  = if String.eqb k k' then Some v else dict_get k' d.
Proof.
  induction d as [|[k0 v0] d IH]; simpl.
  - by destruct (String.eqb k k').
  - destruct (String.eqb_spec k0 k) as [->|Hne]; simpl.
    + by destruct (String.eqb k k').
    + rewrite IH. destruct (String.eqb_spec k k') as [->|Hne'].
      * by rewrite (proj2 (String.eqb_neq k0 k') Hne).
      * done.
Qed.

Section Merged.
Context (h : store).

Lemma build_concrete_keys (root : value) (concrete : list string)
    (ret ret' : dict) :
  build_concrete h root concrete ret = Ok ret' →
  NoDup ret.*1 →
  NoDup ret'.*1 ∧ ∀ k, k ∈ ret'.*1 ↔ k ∈ ret.*1 ∨ k ∈ concrete.
Proof.
  revert ret. induction concrete as [|x xs IH]; intros ret; simpl.
  - intros [= <-] Hnd. split; [done|]. intros k.
    rewrite elem_of_nil. tauto.
  - destruct (getitem h root x) as [y| |]; simpl; try done.
    destruct (fwrap h y) as [v| |]; simpl; try done.
    intros Hb Hnd.
    destruct (IH _ Hb (dict_set_NoDup x v ret Hnd)) as [Hnd' Hkeys].
    split; [done|]. intros k.
    rewrite Hkeys, dict_set_key_elem, elem_of_cons. tauto.
Qed.

Lemma subfields_loop_keys
    (rec : value → list string → outcome (gset string * value))
    (root : value) (groups : list (string * list string))
    (p p' : gset string) (r r' : dict) :
  subfields_loop h rec root groups p r = Ok (p', r') →
  NoDup r.*1 →
  NoDup r'.*1 ∧ ∀ k, k ∈ r'.*1 ↔ k ∈ r.*1 ∨ k ∈ groups.*1.
Proof.
  revert p r. induction groups as [|[key rest] groups IH]; intros p r; simpl.
  - intros [= <- <-] Hnd. split; [done|]. intros k.
    rewrite elem_of_nil. tauto.
  - destruct (getitem h root key) as [node|[]|]; simpl; try done.
    destruct (rec node rest) as [[q v]|[]|]; simpl; try done.
    intros Hl Hnd.
    destruct (IH _ _ Hl (dict_set_NoDup key v r Hnd)) as [Hnd' Hkeys].
    split; [done|]. intros k.
    rewrite Hkeys, dict_set_key_elem, elem_of_cons. tauto.
Qed.

Lemma revisit_filter_sublist (d : dict) (memo : gset addr) :
  sublist (List.filter (λ x : string * value, negb (is_none x.2))
             (revisit d memo).1) d.
Proof.
  revert memo. induction d as [|[k v] d IH]; intros memo; [constructor|].
  simpl. specialize (IH (memo_add v memo)).
  destruct (revisit d (memo_add v memo)) as [vs memo']. simpl in *.
  destruct (id_in v memo); simpl.
  - by constructor.
  - destruct (is_none v); simpl; by constructor.
Qed.

Lemma final_wrap_shape (ret : dict) :
  final_wrap h ret = VDict ret ∨ final_wrap h ret = VNone
  ∨ ∃ l, l ≠ [] ∧ final_wrap h ret = VDict [("fields", VPairs l)]
         ∧ sublist l ret.
Proof.
  unfold final_wrap. destruct (is_nil ret || _); [by left|]. right.
  pose proof (revisit_filter_sublist ret ∅) as Hsub.
  destruct (List.filter _ _) as [|x l] eqn:Hl; [by left|]. right.
  by exists (x :: l).
Qed.

Lemma top_name_elem (fields : list string) (k : string) :
  k ∈ top_name <$> fields
  ↔ k ∈ (partition_fields fields).1 ∨ k ∈ (partition_fields fields).2.*1.
Proof.
  rewrite list_elem_of_fmap, partition_fields_concrete_elem. split.
  - intros (field & -> & Hin). unfold top_name.
    destruct (split_dot field) as [[p q]|] eqn:Hs; [|by left].
    right. apply split_dot_inv in Hs as [-> Hp].
    apply list_elem_of_fmap. exists (p, postfixes p fields).
    split; [done|]. apply partition_fields_group_elem.
    assert (q ∈ postfixes p fields) as Hq by (by apply postfixes_elem).
    split; [done|]. intros Hnil. rewrite Hnil in Hq.
    by apply elem_of_nil in Hq.
  - intros [[Hin Hk]|Hin].
    + exists k. split; [|done]. unfold top_name. by rewrite Hk.
    + apply list_elem_of_fmap in Hin as ([key rest] & -> & Hin).
      apply partition_fields_group_elem in Hin as [-> Hne]. simpl.
      destruct (postfixes key fields) as [|post ps] eqn:Hps; [done|].
      assert (post ∈ postfixes key fields) as Hpost by (rewrite Hps; left).
      apply postfixes_elem in Hpost as [Hf Hk].
      exists (dotted key post). split; [|done].
      unfold top_name. by rewrite split_dot_dotted.
Qed.

Lemma get_fields_merged_keys (root : value) (fields : list string)
    (p : gset string) (ret : dict) :
  get_fields_merged h (get_fields h) root fields = Ok (p, ret) →
  NoDup ret.*1 ∧ ∀ k, k ∈ ret.*1 ↔ k ∈ top_name <$> fields.
Proof.
  unfold get_fields_merged. intros Hm.
  pose proof (top_name_elem fields) as Htop.
  destruct (partition_fields fields) as [concrete subfields]. simpl in *.
  destruct (build_concrete h root concrete []) as [ret0|[]|] eqn:Hc;
    try done.
  simpl in Hm.
  destruct (build_concrete_keys _ _ _ _ Hc) as [Hnd0 Hk0]; [constructor|].
  destruct (subfields_loop_keys _ _ _ _ _ _ _ Hm Hnd0) as [Hnd Hk].
  split; [done|]. intros k. rewrite Hk, Hk0, Htop. simpl.
  rewrite elem_of_nil. tauto.
Qed.

End Merged.

(** X8. On success the pruned spec has no extras and no repeats: the
    merged mapping has exactly one entry for each name requested at this
    level (a concrete field, or the prefix of dotted ones), and the
    result is that mapping itself, [None], or [{"fields": l}] where [l]
    is a non-empty sub-sequence of the mapping's entries, in the same
    order and with their values untouched. *)
Theorem get_fields_result_shape (h : store) (root : value)
    (fields : list string) (prefetch : gset string) (spec : value) :
  get_fields h root fields = Ok (prefetch, spec) →
  ∃ ret,
    get_fields_merged h (get_fields h) root fields = Ok (prefetch, ret)
    ∧ NoDup ret.*1
    ∧ (∀ k, k ∈ ret.*1 ↔ k ∈ top_name <$> fields)
    ∧ (spec = VDict ret ∨ spec = VNone
       ∨ ∃ l, l ≠ [] ∧ spec = VDict [("fields", VPairs l)] ∧ sublist l ret).
Proof.
  rewrite get_fields_closed_form.
  destruct (get_fields_merged _ _ _ _) as [[p ret]| |] eqn:Hm; try done.
  simpl. intros [= <- <-]. exists ret. split; [done|].
  destruct (get_fields_merged_keys h _ _ _ _ Hm) as [Hnd Hk].
  split; [done|]. split; [done|]. apply final_wrap_shape.
Qed.

Lemma get_fields_result_shape_witness :
  ∃ ret,
    get_fields_merged ex_store (get_fields ex_store) (VObj 0)
      ["nothing"; "a.b"; "name"; "a.c"; "name"]
    = Ok ({["a"]}, ret)
    ∧ NoDup ret.*1
    ∧ (∀ k, k ∈ ret.*1
            ↔ k ∈ top_name <$> ["nothing"; "a.b"; "name"; "a.c"; "name"])
    ∧ (VDict
         [("fields",
           VPairs
             [("name", VObj 4);
              ("a", VDict [("fields",
                            VPairs [("b", VObj 2); ("c", VObj 3)])])])]
       = VDict ret
       ∨ VDict
           [("fields",
             VPairs
               [("name", VObj 4);
                ("a", VDict [("fields",
                              VPairs [("b", VObj 2); ("c", VObj 3)])])])]
         = VNone
       ∨ ∃ l, l ≠ []
              ∧ VDict
                  [("fields",
                    VPairs
                      [("name", VObj 4);
                       ("a", VDict [("fields",
                                     VPairs [("b", VObj 2);
                                             ("c", VObj 3)])])])]
                = VDict [("fields", VPairs l)]
              ∧ sublist l ret).
Proof.
  apply (get_fields_result_shape ex_store (VObj 0)
           ["nothing"; "a.b"; "name"; "a.c"; "name"]).
  vm_compute. reflexivity.
Defined.

Section MergedValues.
Context (h : store).

Lemma build_concrete_values (root : value) (concrete : list string)
    (ret ret' : dict) (k : string) (v : value) :
  build_concrete h root concrete ret = Ok ret' →
  dict_get k ret' = Some v →
  dict_get k ret = Some v
  ∨ ∃ node, getitem h root k = Ok node ∧ fwrap h node = Ok v.
Proof.
  revert ret. induction concrete as [|x xs IH]; intros ret; simpl.
  - intros [= <-] Hk. by left.
  - destruct (getitem h root x) as [y| |] eqn:Hy; simpl; try done.
    destruct (fwrap h y) as [w| |] eqn:Hw; simpl; try done.
    intros Hb Hk. destruct (IH _ Hb Hk) as [Hold|Hnew]; [|by right].
    rewrite dict_get_set in Hold.
    destruct (String.eqb_spec x k) as [->|Hne]; [|by left].
    injection Hold as ->. right. eauto.
Qed.

Lemma subfields_loop_values
    (rec : value → list string → outcome (gset string * value))
    (root : value) (groups : list (string * list string))
    (p p' : gset string) (r r' : dict) (k : string) (v : value) :
  subfields_loop h rec root groups p r = Ok (p', r') →
  dict_get k r' = Some v →
  (∃ rest node q, (k, rest) ∈ groups ∧ getitem h root k = Ok node
                  ∧ rec node rest = Ok (q, v))
  ∨ ((k ∉ groups.*1) ∧ dict_get k r = Some v).
Proof.
  revert p r. induction groups as [|[key rest] groups IH]; intros p r; simpl.
  - intros [= <- <-] Hk. right. split; [apply not_elem_of_nil|done].
  - destruct (getitem h root key) as [node|[]|] eqn:Hnode; simpl; try done.
    destruct (rec node rest) as [[q w]|[]|] eqn:Hrec; simpl; try done.
    intros Hl Hk.
    destruct (IH _ _ Hl Hk) as [(rest' & node' & q' & Hin & Hn & Hr)
                               |[Hnin Hold]].
    + left. exists rest', node', q'. split; [by right|done].
    + rewrite dict_get_set in Hold.
      destruct (String.eqb_spec key k) as [->|Hne].
      * injection Hold as ->. left. exists rest, node, q.
        split; [left|done].
      * right. split; [|done]. rewrite not_elem_of_cons. by split.
Qed.

Lemma get_fields_merged_entry (root : value) (fields : list string)
    (p : gset string) (ret : dict) (k : string) (v : value) :
  get_fields_merged h (get_fields h) root fields = Ok (p, ret) →
  dict_get k ret = Some v →
  ∃ node, getitem h root k = Ok node
    ∧ match postfixes k fields with
      | [] => fwrap h node = Ok v
      | rest => ∃ q, get_fields h node rest = Ok (q, v)
      end.
Proof.
  unfold get_fields_merged. intros Hm Hk.
  pose proof (partition_fields_group_elem fields) as Hgrp.
  destruct (partition_fields fields) as [concrete subfields]. simpl in *.
  destruct (build_concrete h root concrete []) as [ret0|[]|] eqn:Hc;
    try done.
  simpl in Hm.
  destruct (subfields_loop_values _ _ _ _ _ _ _ _ _ Hm Hk)
    as [(rest & node & q & Hin & Hn & Hr)|[Hnin Hold]].
  - apply Hgrp in Hin as [-> Hne]. exists node. split; [done|].
    destruct (postfixes k fields); [done|]. eauto.
  - destruct (build_concrete_values _ _ _ _ _ _ Hc Hold)
      as [Hnil|(node & Hn & Hw)]; [done|].
    exists node. split; [done|].
    destruct (postfixes k fields) as [|post ps] eqn:Hps; [done|].
    exfalso. apply Hnin. apply list_elem_of_fmap.
    exists (k, postfixes k fields). split; [done|].
    apply Hgrp. by rewrite Hps.
Qed.

End MergedValues.

(** X9. Each entry of the merged mapping is the projection of the value
    stored under its name in [root]: for a name that is the prefix of
    dotted fields, the pruned spec returned by the recursive call on
    their remainders; otherwise [fwrap] of the stored value.  So when a
    relation is requested both whole (["a"]) and in part (["a.b"]), the
    partial projection is the one that is kept. *)
Theorem get_fields_merged_values (h : store) (root : value)
    (fields : list string) (prefetch : gset string) (ret : dict)
    (k : string) (v : value) :
  get_fields_merged h (get_fields h) root fields = Ok (prefetch, ret) →
  dict_get k ret = Some v →
  ∃ node, getitem h root k = Ok node
    ∧ match postfixes k fields with
      | [] => fwrap h node = Ok v
      | rest => ∃ q, get_fields h node rest = Ok (q, v)
      end.
Proof. apply get_fields_merged_entry. Qed.

Lemma get_fields_merged_values_witness :
  ∃ node, getitem ex_store (VObj 0) "a" = Ok node
    ∧ ∃ q, get_fields ex_store node ["b"]
           = Ok (q, VDict [("fields", VPairs [("b", VObj 2)])]).
Proof.
  apply (get_fields_merged_values ex_store (VObj 0) ["a"; "name"; "a.b"]
           {["a"]}
           [("a", VDict [("fields", VPairs [("b", VObj 2)])]);
            ("name", VObj 4)]
           "a").
  - vm_compute. reflexivity.
  - reflexivity.
Defined.

(** ** What the prefetch set holds *)

Lemma split_dots_nonempty (s : string) : split_dots s ≠ [].
Proof.
  destruct s as [|c s]; [done|]. simpl.
  destruct (Ascii.eqb c "."); [done|]. by destruct (split_dots s).
Qed.

Lemma prefix_paths_concrete (x : string) : nodot x → prefix_paths x = [].
Proof.
  unfold prefix_paths, nodot. intros Hx. by rewrite split_dots_unfold, Hx.
Qed.

Lemma prefix_paths_compound (key post : string) :
  nodot key →
  prefix_paths (dotted key post) = key :: (dunder key <$> prefix_paths post).
Proof.
  unfold prefix_paths. intros Hkey.
  rewrite (split_dots_unfold (dotted key post)), split_dot_dotted by done.
  simpl. pose proof (split_dots_nonempty post).
  by destruct (split_dots post).
Qed.

Section PrefetchMembers.
Context (h : store).

Lemma subfields_loop_prefetch_iff
    (rec : value → list string → outcome (gset string * value))
    (root : value) (groups : list (string * list string))
    (p p' : gset string) (r r' : dict) :
  subfields_loop h rec root groups p r = Ok (p', r') →
  ∀ x, x ∈ p' ↔
       x ∈ p
       ∨ ∃ key rest node q v,
           (key, rest) ∈ groups ∧ getitem h root key = Ok node
           ∧ rec node rest = Ok (q, v)
           ∧ (x = key ∨ ∃ y, y ∈ q ∧ x = dunder key y).
Proof.
  revert p r. induction groups as [|[key rest] groups IH]; intros p r; simpl.
  - intros [= <- <-] x. split; [by left|]. intros [?|(?&?&?&?&?&Hin&_)];
      [done|]. by apply elem_of_nil in Hin.
  - destruct (getitem h root key) as [node|[]|] eqn:Hnode; simpl; try done.
    destruct (rec node rest) as [[q v]|[]|] eqn:Hrec; simpl; try done.
    intros Hl x. rewrite (IH _ _ Hl x). split.
    + intros [Hold|(k & rs & nd & q' & v' & Hin & Hn & Hr & Hcase)].
      * apply elem_of_union in Hold as [Hold|Hmap].
        -- apply elem_of_union in Hold as [->%elem_of_singleton|Hold];
             [|by left].
           right. exists key, rest, node, q, v.
           split; [left|]. repeat split; try done. by left.
        -- apply elem_of_map in Hmap as (y & -> & Hy).
           right. exists key, rest, node, q, v.
           split; [left|]. repeat split; try done. right. by exists y.
      * right. exists k, rs, nd, q', v'. split; [by right|done].
    + intros [Hold|(k & rs & nd & q' & v' & Hin & Hn & Hr & Hcase)].
      * left. set_solver.
      * apply elem_of_cons in Hin as [[= -> ->]|Hin].
        -- left. rewrite Hnode in Hn. injection Hn as <-.
           rewrite Hrec in Hr. injection Hr as <- <-.
           destruct Hcase as [->|(y & Hy & ->)]; [set_solver|].
           apply elem_of_union. right. apply elem_of_map. by exists y.
        -- right. exists k, rs, nd, q', v'. done.
Qed.

Lemma get_fields_prefetch_closed (root : value) (fields : list string) :
  ∀ p s, get_fields h root fields = Ok (p, s) →
         ∀ x, x ∈ p ↔ ∃ field, field ∈ fields ∧ x ∈ prefix_paths field.
Proof.
  pattern root, fields. revert root fields.
  apply get_fields_ind. intros root fields IH p s.
  rewrite get_fields_closed_form. unfold get_fields_merged.
  pose proof (partition_fields_group_elem fields) as Hgrp.
  destruct (partition_fields fields) as [concrete subfields]. simpl in *.
  destruct (build_concrete h root concrete []) as [ret0|[]|]; try done.
  simpl.
  destruct (subfields_loop _ _ _ _ _ _) as [[p' r]| |] eqn:Hl; try done.
  simpl. intros [= <- <-] x.
  rewrite (subfields_loop_prefetch_iff _ _ _ _ _ _ _ Hl x). split.
  - intros [Hx|(key & rest & node & q & v & Hin & Hn & Hr & Hcase)].
    { by apply not_elem_of_empty in Hx. }
    pose proof (IH key rest node Hin q v Hr) as Hq.
    apply Hgrp in Hin as [-> Hne].
    destruct Hcase as [->|(y & Hy & ->)].
    + destruct (postfixes key fields) as [|post ps] eqn:Hps; [done|].
      assert (post ∈ postfixes key fields) as Hp by (rewrite Hps; left).
      apply postfixes_elem in Hp as [Hf Hkey].
      exists (dotted key post). split; [done|].
      rewrite prefix_paths_compound by done. left.
    + apply Hq in Hy as (post & Hp & Hy).
      apply postfixes_elem in Hp as [Hf Hkey].
      exists (dotted key post). split; [done|].
      rewrite prefix_paths_compound by done. right.
      apply list_elem_of_fmap. by exists y.
  - intros (field & Hf & Hx). right.
    destruct (split_dot field) as [[key post]|] eqn:Hs.
    + apply split_dot_inv in Hs as [-> Hkey].
      rewrite prefix_paths_compound in Hx by done.
      assert (post ∈ postfixes key fields) as Hpost
        by (by apply postfixes_elem).
      assert ((key, postfixes key fields) ∈ subfields) as Hin.
      { apply Hgrp. split; [done|]. intros Hnil. rewrite Hnil in Hpost.
        by apply elem_of_nil in Hpost. }
      assert (∃ res, subfields_loop h (get_fields h) root subfields ∅ ret0
                     = Ok res) as Hok by eauto.
      apply subfields_loop_ok_iff in Hok. rewrite Forall_forall in Hok.
      destruct (Hok _ Hin) as (node & [q v] & Hnode & Hrec). simpl in *.
      exists key, (postfixes key fields), node, q, v.
      repeat split; try done.
      apply elem_of_cons in Hx as [->|Hx]; [by left|]. right.
      apply list_elem_of_fmap in Hx as (y & -> & Hy). exists y.
      split; [|done]. apply (IH key _ node Hin q v Hrec). eauto.
    + rewrite prefix_paths_concrete in Hx by done.
      by apply elem_of_nil in Hx.
Qed.

End PrefetchMembers.

(** X10. On success the prefetch set is exactly the set of eager-load
    paths of the requested fields: for a field [s1.s2. ... .sn], the
    paths [s1], [s1__s2], up to [s1__...__s(n-1)].  So concrete fields
    prefetch nothing, and requesting the same fields in another order
    succeeds just the same, with the same prefetch set. *)
Theorem get_fields_prefetch_members (h : store) (root : value)
    (fields : list string) (prefetch : gset string) (spec : value) :
  get_fields h root fields = Ok (prefetch, spec) →
  (∀ x, x ∈ prefetch ↔ ∃ field, field ∈ fields ∧ x ∈ prefix_paths field)
  ∧ (Forall nodot fields → prefetch = ∅)
  ∧ (∀ fields', fields ≡ₚ fields' →
       ∃ spec', get_fields h root fields' = Ok (prefetch, spec')).
Proof.
  intros Hget.
  pose proof (get_fields_prefetch_closed h _ _ _ _ Hget) as Hclosed.
  split; [done|]. split.
  - intros Hconc. apply set_eq. intros x. split; [|set_solver].
    intros (field & Hf & Hx)%Hclosed. rewrite Forall_forall in Hconc.
    rewrite prefix_paths_concrete in Hx by (by apply Hconc).
    by apply elem_of_nil in Hx.
  - intros fields' Hperm.
    assert (∃ res, get_fields h root fields' = Ok res) as [[p' s'] Hget'].
    { apply get_fields_succeeds_iff. rewrite <- Hperm.
      apply get_fields_succeeds_iff. eauto. }
    exists s'. rewrite Hget'. do 2 f_equal. apply set_eq. intros x.
    rewrite (get_fields_prefetch_closed h _ _ _ _ Hget' x), (Hclosed x).
    by setoid_rewrite Hperm.
Qed.

Lemma get_fields_prefetch_members_witness :
  ∃ spec',
    get_fields ex_store (VObj 0) ["self.a.b"; "name"]
    = Ok ({[ "self"; "self__a" ]}, spec').
Proof.
  assert (get_fields ex_store (VObj 0) ["name"; "self.a.b"]
          = Ok (({[ "self"; "self__a" ]} : gset string),
                VDict
                  [("fields",
                    VPairs
                      [("name", VObj 4);
                       ("self",
                        VDict
                          [("fields",
                            VPairs
                              [("a",
                                VDict
                                  [("fields",
                                    VPairs [("b", VObj 2)])])])])])]))
    as Hget by (vm_compute; reflexivity).
  apply (proj2 (proj2 (get_fields_prefetch_members _ _ _ _ _ Hget))).
  apply Permutation_swap.
Defined.

(** ** Requesting a field twice *)

Lemma dict_set_same {V} (k : string) (v : V) (d : list (string * V)) :
  dict_get k d = Some v → dict_set k v d = d.
Proof.
  induction d as [|[k' v'] d IH]; [done|]. simpl.
  destruct (String.eqb_spec k' k) as [->|Hne].
  - by intros [= ->].
  - intros Hg. by rewrite IH.
Qed.

Section Duplicates.
Context (h : store).

Lemma build_concrete_app (root : value) (c1 c2 : list string) (ret : dict) :
  build_concrete h root (c1 ++ c2) ret
  = ret1 ← build_concrete h root c1 ret; build_concrete h root c2 ret1.
Proof.
  revert ret. induction c1 as [|x xs IH]; intros ret; [done|]. simpl.
  destruct (getitem h root x) as [y| |]; simpl; try done.
  destruct (fwrap h y) as [v| |]; simpl; try done.
Qed.

Lemma build_concrete_get (root : value) (concrete : list string)
    (ret ret' : dict) (k : string) :
  build_concrete h root concrete ret = Ok ret' →
  (k ∈ concrete →
   ∃ node v, getitem h root k = Ok node ∧ fwrap h node = Ok v
             ∧ dict_get k ret' = Some v)
  ∧ (k ∉ concrete → dict_get k ret' = dict_get k ret).
Proof.
  revert ret. induction concrete as [|x xs IH]; intros ret; simpl.
  - intros [= <-]. split; [|done]. intros Hin. by apply elem_of_nil in Hin.
  - destruct (getitem h root x) as [y| |] eqn:Hy; simpl; try done.
    destruct (fwrap h y) as [v| |] eqn:Hv; simpl; try done.
    intros Hb. destruct (IH _ Hb) as [Hin Hout].
    destruct (decide (k ∈ xs)) as [Hk|Hk].
    + split; [by intros _; apply Hin|].
      rewrite not_elem_of_cons. by intros [_ ?].
    + rewrite (Hout Hk), dict_get_set. split.
      * intros [->|?]%elem_of_cons; [|done].
        rewrite String.eqb_refl. eauto.
      * rewrite not_elem_of_cons. intros [Hne _].
        by rewrite (proj2 (String.eqb_neq x k)).
Qed.

Lemma build_concrete_again (root : value) (concrete : list string)
    (f : string) :
  f ∈ concrete →
  build_concrete h root (concrete ++ [f]) []
  = build_concrete h root concrete [].
Proof.
  intros Hf. rewrite build_concrete_app.
  destruct (build_concrete h root concrete []) as [ret| |] eqn:Hc; try done.
  simpl. destruct (build_concrete_get _ _ _ _ f Hc) as [Hin _].
  destruct (Hin Hf) as (node & v & -> & Hv & Hget). simpl.
  rewrite Hv. simpl. by rewrite dict_set_same.
Qed.

Lemma subfields_loop_group_add
    (rec : value → list string → outcome (gset string * value))
    (root : value) (g : list (string * list string))
    (key post : string) (rest : list string) (p : gset string) (r : dict) :
  dict_get key g = Some rest →
  (∀ node, rec node (rest ++ [post]) = rec node rest) →
  subfields_loop h rec root (group_add key post g) p r
  = subfields_loop h rec root g p r.
Proof.
  intros Hget Hrec. revert p r Hget.
  induction g as [|[k ps] g IH]; intros p r; [done|]. simpl.
  destruct (String.eqb_spec k key) as [->|Hne].
  - intros [= ->]. simpl.
    destruct (getitem h root key) as [node|[]|]; simpl; try done.
    by rewrite Hrec.
  - intros Hget. simpl.
    destruct (getitem h root k) as [node|[]|]; simpl; try done.
    destruct (rec node ps) as [[q v]|[]|]; simpl; try done.
    by apply IH.
Qed.

Lemma get_fields_again (root : value) (fields : list string) :
  ∀ f, f ∈ fields →
       get_fields h root (fields ++ [f]) = get_fields h root fields.
Proof.
  pattern root, fields. revert root fields.
  apply get_fields_ind. intros root fields IH f Hf.
  rewrite !get_fields_unfold. unfold get_fields_step, get_fields_merged.
  rewrite partition_fields_snoc. unfold classify.
  pose proof (partition_fields_concrete_elem fields) as Hconc.
  pose proof (partition_fields_group_elem fields) as Hgrp.
  pose proof (partition_fields_char fields) as (_ & Hnd & _).
  destruct (partition_fields fields) as [concrete subfields]. simpl in *.
  destruct (split_dot f) as [[key post]|] eqn:Hs; simpl.
  - apply split_dot_inv in Hs as [-> Hkey].
    assert (post ∈ postfixes key fields) as Hpost
      by (by apply postfixes_elem).
    assert ((key, postfixes key fields) ∈ subfields) as Hin.
    { apply Hgrp. split; [done|]. intros Hnil. rewrite Hnil in Hpost.
      by apply elem_of_nil in Hpost. }
    destruct (as_field_key_error _) as [ret| |]; simpl; try done.
    rewrite (subfields_loop_group_add _ _ _ _ _ (postfixes key fields));
      [done|by apply dict_get_NoDup|].
    intros node. by apply (IH key _ node Hin).
  - rewrite build_concrete_again; [done|]. by apply Hconc.
Qed.

End Duplicates.

(** X11. Asking again for a field that was already requested changes
    nothing: with [f] among [fields], the request [fields ++ [f]] has
    the outcome of [fields], be it the result or the exception. *)
Theorem get_fields_duplicate_field (h : store) (root : value)
    (fields : list string) (f : string) :
  f ∈ fields →
  get_fields h root (fields ++ [f]) = get_fields h root fields.
Proof. intros Hf. by apply get_fields_again. Qed.

Lemma get_fields_duplicate_field_witness :
  get_fields ex_store (VObj 0) (["a.b"; "name"; "a.c"] ++ ["a.b"])
  = get_fields ex_store (VObj 0) ["a.b"; "name"; "a.c"].
Proof.
  apply get_fields_duplicate_field. left.
Defined.

(** ** Shared objects and repeated wrapping *)

Section Shared.
Context (h : store).

Lemma fwrap_aux_records (n : nat) (b : addr) (v : value)
    (memo memo' : gset addr) :
  fwrap_aux h n (VObj b) memo = Ok (v, memo') → b ∈ memo'.
Proof.
  destruct n as [|n]; [done|]. rewrite fwrap_aux_unfold. simpl.
  case_bool_decide as Hin; [by intros [= <- <-]|].
  destruct (h !! b) as [[]|]; try (intros [= <- <-]; set_solver).
  destruct (is_nil _ || _); [intros [= <- <-]; set_solver|].
  destruct (fwrap_items _ _ _) as [[l m]| |] eqn:Hitems; simpl; try done.
  pose proof (fwrap_items_memo_mono _ _ _ _ _
                (fwrap_aux_memo_mono h n) Hitems) as Hsub.
  destruct (is_nil _); intros [= <- <-]; set_solver.
Qed.

Lemma fwrap_items_keys
    (f : value → gset addr → outcome (value * gset addr))
    (items l : dict) (memo memo' : gset addr) :
  fwrap_items f items memo = Ok (l, memo') → l.*1 = items.*1.
Proof.
  revert memo l. induction items as [|[k x] items IH]; intros memo l; simpl.
  - by intros [= <- <-].
  - destruct (f x memo) as [[v m1]| |]; simpl; try done.
    destruct (fwrap_items f items m1) as [[vs m2]| |] eqn:Hrest; simpl;
      try done.
    intros [= <- <-]. rewrite !fmap_cons. simpl. f_equal. by eapply IH.
Qed.

Lemma fwrap_items_second_visit (n : nat) (b : addr) (items l : dict)
    (memo memo' : gset addr) (i j : nat) (k1 k2 : string) :
  fwrap_items (fwrap_aux h n) items memo = Ok (l, memo') →
  items !! i = Some (k1, VObj b) → items !! j = Some (k2, VObj b) →
  i < j → l !! j = Some (k2, VNone).
Proof.
  revert memo l i j. induction items as [|[k x] items IH];
    intros memo l i j; [done|]. simpl.
  destruct (fwrap_aux h n x memo) as [[v m1]| |] eqn:Hx; simpl; try done.
  destruct (fwrap_items _ items m1) as [[vs m2]| |] eqn:Hrest; simpl;
    try done.
  intros [= <- <-] Hi Hj Hlt. destruct j as [|j]; [lia|]. simpl in *.
  destruct i as [|i]; simpl in *.
  - injection Hi as -> ->. apply fwrap_aux_records in Hx.
    pose proof (fwrap_items_revisited h n b _ _ _ _ Hx Hrest) as Hall.
    destruct (Forall2_lookup_l _ _ _ _ _ Hall Hj) as ([k' w] & Hw & Hk & Hn).
    simpl in *. subst k'. by rewrite Hw, Hn.
  - eapply IH; [done|done|done|lia].
Qed.

Lemma fwrap_second_reference (a b : addr) (d : list (string * ref))
    (l : dict) (i j : nat) (k1 k2 : string) :
  h !! a = Some (PDict d) → NoDup d.*1 →
  d !! i = Some (k1, RObj b) → d !! j = Some (k2, RObj b) → i < j →
  fwrap h (VObj a) = Ok (VDict [("fields", VPairs l)]) →
  k2 ∉ l.*1.
Proof.
  intros Ha Hnd Hi Hj Hlt. unfold fwrap, fwrap_fuel.
  rewrite fwrap_aux_unfold, id_in_empty. simpl. rewrite Ha.
  destruct (is_nil _ || _); [done|].
  destruct (fwrap_items _ _ _) as [[l0 m]| |] eqn:Hitems; simpl; try done.
  destruct (is_nil _) eqn:Hnil; [done|]. intros [= <-] Hin.
  apply list_elem_of_fmap in Hin as ([k' x] & -> & Hin). simpl in *.
  apply list_elem_of_In, filter_In in Hin as [Hin Hsome].
  apply list_elem_of_In, list_elem_of_lookup in Hin as [t Ht].
  pose proof (fwrap_items_keys _ _ _ _ _ Hitems) as Hkeys.
  assert ((prod_map id deref <$> d).*1 = d.*1) as Hd.
  { rewrite <- list_fmap_compose. apply list_fmap_ext. by intros ? [? ?]. }
  rewrite Hd in Hkeys.
  assert (t = j) as ->.
  { apply (NoDup_lookup d.*1 t j k'); [done| |].
    - rewrite <- Hkeys, list_lookup_fmap, Ht. done.
    - rewrite list_lookup_fmap, Hj. done. }
  assert (l0 !! j = Some (k', VNone)) as Hnone.
  { eapply (fwrap_items_second_visit _ b _ _ _ _ i j k1 k');
      [exact Hitems| | |done].
    - rewrite list_lookup_fmap, Hi. done.
    - rewrite list_lookup_fmap, Hj. done. }
  rewrite Ht in Hnone. injection Hnone as ->. done.
Qed.

Lemma fwrap_idempotent (obj v : value) :
  fwrap h obj = Ok v → fwrap h v = Ok v.
Proof. intros Hv. by apply fwrap_passthrough, (fwrap_passes h obj). Qed.

End Shared.

(** X12. The memo of [fwrap] does not only cut cycles: when two entries
    of a stored dict hold one and the same object, the entry met second
    is absent from the wrapped dict (a spec that reuses one leaf object,
    such as the [True] singleton, under several names keeps only the
    first of them). *)
Theorem fwrap_shared_object_dropped (h : store) (a b : addr)
    (d : list (string * ref)) (l : dict) (i j : nat) (k1 k2 : string) :
  h !! a = Some (PDict d) → NoDup d.*1 →
  d !! i = Some (k1, RObj b) → d !! j = Some (k2, RObj b) → i < j →
  fwrap h (VObj a) = Ok (VDict [("fields", VPairs l)]) →
  k2 ∉ l.*1.
Proof. apply fwrap_second_reference. Qed.

Lemma fwrap_shared_object_dropped_witness :
  "c" ∉ [("b", VObj 2)].*1.
Proof.
  apply (fwrap_shared_object_dropped ex_shared_store 1 2
           [("b", RObj 2); ("c", RObj 2)] [("b", VObj 2)] 0 1 "b" "c").
  - reflexivity.
  - vm_compute. repeat constructor; set_solver.
  - reflexivity.
  - reflexivity.
  - lia.
  - vm_compute. reflexivity.
Defined.

(** X13. [fwrap] is idempotent: what it returns is returned unchanged
    when wrapped again, and so is the pruned spec of [get_fields]. *)
Theorem fwrap_fixed_point (h : store) :
  (∀ obj v, fwrap h obj = Ok v → fwrap h v = Ok v)
  ∧ (∀ root fields prefetch spec,
       get_fields h root fields = Ok (prefetch, spec) →
       fwrap h spec = Ok spec).
Proof.
  split; [apply fwrap_idempotent|].
  intros root fields prefetch spec Hget.
  by apply fwrap_passthrough, (get_fields_passes h root fields prefetch).
Qed.

Lemma fwrap_fixed_point_witness :
  fwrap ex_store
    (VDict [("fields", VPairs [("a", VDict [("fields",
                                             VPairs [("b", VObj 2);
                                                     ("c", VObj 3)])]);
                               ("name", VObj 4)])])
  = Ok (VDict [("fields", VPairs [("a", VDict [("fields",
                                                VPairs [("b", VObj 2);
                                                        ("c", VObj 3)])]);
                                  ("name", VObj 4)])]).
Proof.
  apply (proj1 (fwrap_fixed_point ex_store) (VObj 0)).
  vm_compute. reflexivity.
Defined.

(** ** Reading numbers and printing keys *)

(** [int] on the strings a [page] parameter can hold: blanks around the
    numeral and single underscores between digits are read, a sign is
    allowed, and anything else is refused. *)
Example py_int_examples :
  py_int "2" = Some 2%Z
  ∧ py_int " 2" = Some 2%Z
  ∧ py_int (String (ascii_of_nat 9) ("-12" +:+ String (ascii_of_nat 160) EmptyString))
    = Some (-12)%Z
  ∧ py_int "+007" = Some 7%Z
  ∧ py_int "1_000" = Some 1000%Z
  ∧ py_int "1__0" = None
  ∧ py_int "_1" = None
  ∧ py_int "1_" = None
  ∧ py_int "- 1" = None
  ∧ py_int "1 2" = None
  ∧ py_int (String (ascii_of_nat 28) "5") = None
  ∧ py_int (String (ascii_of_nat 178) EmptyString) = None
  ∧ py_int EmptyString = None
  ∧ py_int "two" = None.
Proof. repeat split; vm_compute; reflexivity. Qed.

(** [str] of a [KeyError]: the key as [repr] prints it. *)
Example key_error_str_examples :
  key_error_str "p" = "'p'"
  ∧ key_error_str "a\b" = "'a\\b'"
  ∧ key_error_str "it's"
    = String double_quote ("it's" +:+ String double_quote EmptyString)
  ∧ key_error_str (String double_quote "it's")
    = String single_quote
        (String double_quote
           ("it" +:+ String backslash ("'s" +:+ String single_quote EmptyString)))
  ∧ key_error_str (String (ascii_of_nat 10) EmptyString) = "'\n'"
  ∧ key_error_str (String (ascii_of_nat 0) EmptyString) = "'\x00'"
  ∧ key_error_str (String (ascii_of_nat 173) EmptyString) = "'\xad'"
  ∧ key_error_str (String (ascii_of_nat 233) EmptyString)
    = String single_quote
        (String (ascii_of_nat 233) (String single_quote EmptyString)).
Proof. repeat split; vm_compute; reflexivity. Qed.

(** ** The list view, stage by stage *)

Section ListStages.
Context {Row J : Type}.
Context (qs_filter : params → list Row → outcome (list Row)).
Context (qs_order_by : list string → list Row → outcome (list Row)).
Context (serialize : Row → dict → outcome J).

Lemma list_get_stages (self : endpoint) (request : params) :
  list_get qs_filter qs_order_by serialize self request
  = let ps := delete "_" request in
    page ← requested_page ps;
    data ← filter_data qs_filter (objects self) (filter_kwargs ps);
    data ← sort_data qs_order_by data (requested_sort ps);
    data_page ← match paginate self data page with
                | Raise EmptyPage => Raise (HttpError 404 no_such_page)
                | r => r
                end;
    '(related, config) ←
      match get_fields (spec_store self) (serialize_config self)
              (requested_fields (default_fields self) ps) with
      | Raise e => Raise (list_view_error e)
      | r => r
      end;
    results ← serialize_all serialize (spec_store self) config
                (object_list data_page);
    Ok (Http200
          (ListBody
             (Meta (length (object_list data_page)) page (per_page self)
                   (end_index data_page) (length data))
             results)
          "*").
Proof.
  unfold list_get, cachebusterable, list_get_raw, pop_param,
    requested_page, requested_sort, requested_fields, filter_kwargs.
  cbv zeta.
  rewrite !(lookup_delete_ne _ "page" "sort_by") by done.
  rewrite !(lookup_delete_ne _ "sort_by" "fields") by done.
  rewrite !(lookup_delete_ne _ "page" "fields") by done.
  destruct (delete "_" request !! "page") as [s|]; [|simpl].
  - destruct (py_int s); [simpl|done].
    destruct (filter_data _ _ _) as [d1| |]; simpl; try done.
    destruct (sort_data _ _ _) as [d2| |]; simpl; try done.
    destruct (paginate _ _ _) as [pg|[]|]; simpl; try done.
    all: by destruct (get_fields _ _ _) as [[? ?]|[]|].
  - destruct (filter_data _ _ _) as [d1| |]; simpl; try done.
    destruct (sort_data _ _ _) as [d2| |]; simpl; try done.
    destruct (paginate _ _ _) as [pg|[]|]; simpl; try done.
    all: by destruct (get_fields _ _ _) as [[? ?]|[]|].
Qed.

Lemma serialize_all_length (h : store) (config : value) (rows : list Row)
    (js : list J) :
  serialize_all serialize h config rows = Ok js → length js = length rows.
Proof.
  revert js. induction rows as [|x rows IH]; intros js; simpl.
  - by intros [= <-].
  - destruct (serialize_with _ _ _ _) as [j| |]; simpl; try done.
    destruct (serialize_all _ _ _ _) as [js'| |]; simpl; try done.
    intros [= <-]. simpl. by rewrite (IH js').
Qed.

End ListStages.

Lemma filter_kwargs_lookup (request : params) (k : string) :
  k ∉ control_params →
  filter_kwargs (delete "_" request) !! k = request !! k.
Proof.
  unfold control_params, filter_kwargs. intros Hk.
  rewrite !not_elem_of_cons in Hk. destruct Hk as (? & ? & ? & ? & _).
  by rewrite !lookup_delete_ne.
Qed.

Lemma filter_kwargs_control (request : params) (k : string) :
  k ∈ control_params → filter_kwargs (delete "_" request) !! k = None.
Proof.
  unfold control_params, filter_kwargs.
  rewrite !elem_of_cons, elem_of_nil. intros [->|[->|[->|[->|[]]]]].
  - rewrite !lookup_delete_ne by done. apply lookup_delete_eq.
  - rewrite !lookup_delete_ne by done. apply lookup_delete_eq.
  - rewrite lookup_delete_ne by done. apply lookup_delete_eq.
  - apply lookup_delete_eq.
Qed.

Lemma filter_kwargs_spec (request : params) (k : string) :
  filter_kwargs (delete "_" request) !! k
  = if decide (k ∈ control_params) then None else request !! k.
Proof.
  destruct (decide _) as [Hk|Hk].
  - by apply filter_kwargs_control.
  - by apply filter_kwargs_lookup.
Qed.

(** X14. The list view checks the page before the fields: once the
    query set is filtered and sorted, a page out of range is answered
    with the 404 whatever the [fields] parameter says; only on an
    existing page is an exception of [get_fields] reported, a
    [FieldKeyError] or [KeyError] as a 400 and anything else (a
    [TypeError]) as it was raised. *)
Theorem list_get_error_order {Row J : Type}
    (qs_filter : params → list Row → outcome (list Row))
    (qs_order_by : list string → list Row → outcome (list Row))
    (serialize : Row → dict → outcome J)
    (self : endpoint) (request : params) (n : Z)
    (filtered data : list Row) :
  requested_page (delete "_" request) = Ok n →
  filter_data qs_filter (objects self) (filter_kwargs (delete "_" request))
  = Ok filtered →
  sort_data qs_order_by filtered (requested_sort (delete "_" request))
  = Ok data →
  (paginate self data n = Raise EmptyPage →
   list_get qs_filter qs_order_by serialize self request
   = Raise (HttpError 404 no_such_page))
  ∧ (∀ pg e,
       paginate self data n = Ok pg →
       get_fields (spec_store self) (serialize_config self)
         (requested_fields (default_fields self) (delete "_" request))
       = Raise e →
       list_get qs_filter qs_order_by serialize self request
       = Raise (list_view_error e)).
Proof.
  intros Hpage Hfilter Hsort. rewrite list_get_stages. cbv zeta.
  rewrite Hpage. simpl. rewrite Hfilter. simpl. rewrite Hsort. simpl.
  split.
  - by intros ->.
  - intros pg e -> ->. done.
Qed.

Lemma list_get_error_order_witness :
  list_get demo_filter demo_order_by demo_serialize demo_endpoint
    {["page" := "9"; "fields" := "bogus"]}
  = Raise (HttpError 404 no_such_page)
  ∧ list_get demo_filter demo_order_by demo_serialize demo_endpoint
      {["page" := "1"; "fields" := "a.b.x"]}
    = Raise TypeError
  ∧ list_get demo_filter demo_order_by demo_serialize demo_endpoint
      {["page" := "1"; "fields" := "a\b.x"]}
    = Raise (HttpError 400 "Error: Invalid field: 'a\\b'")
  ∧ list_get demo_filter demo_order_by demo_serialize demo_endpoint
      {["page" := "1"; "fields" := "it's.x"]}
    = Raise (HttpError 400
               ("Error: Invalid field: "
                +:+ String double_quote ("it's" +:+ String double_quote EmptyString))).
Proof.
  split; [|split; [|split]].
  - eapply (proj1 (list_get_error_order demo_filter demo_order_by
                     demo_serialize demo_endpoint _ 9 [10; 20; 30]
                     [10; 20; 30] _ _ _)).
    vm_compute. reflexivity.
  - eapply (proj2 (list_get_error_order demo_filter demo_order_by
                     demo_serialize demo_endpoint _ 1 [10; 20; 30]
                     [10; 20; 30] _ _ _) _ TypeError).
    + vm_compute. reflexivity.
    + vm_compute. reflexivity.
  - eapply (proj2 (list_get_error_order demo_filter demo_order_by
                     demo_serialize demo_endpoint _ 1 [10; 20; 30]
                     [10; 20; 30] _ _ _) _ (KeyError "a\b")).
    + vm_compute. reflexivity.
    + vm_compute. reflexivity.
  - eapply (proj2 (list_get_error_order demo_filter demo_order_by
                     demo_serialize demo_endpoint _ 1 [10; 20; 30]
                     [10; 20; 30] _ _ _) _ (KeyError "it's")).
    + vm_compute. reflexivity.
    + vm_compute. reflexivity.
  Unshelve. all: vm_compute; reflexivity.
Defined.

(** X15. The filter is called once, on the rows of the view and with
    exactly the request parameters other than [_], [page], [sort_by]
    and [fields], each with its value.  For [kwargs] that parameter set:
    the response depends on the filter only through what it returns for
    [kwargs] on the rows of the view, and, once the page number is read
    and no parameter clashes with the arguments of [filter], whatever
    the filter raises there leaves the view as it was raised. *)
Theorem list_get_filter_parameters {Row J : Type}
    (qs_order_by : list string → list Row → outcome (list Row))
    (serialize : Row → dict → outcome J)
    (self : endpoint) (request kwargs : params) :
  (∀ k, kwargs !! k
        = if decide (k ∈ control_params) then None else request !! k) →
  (∀ f1 f2,
     f1 kwargs (objects self) = f2 kwargs (objects self) →
     list_get f1 qs_order_by serialize self request
     = list_get f2 qs_order_by serialize self request)
  ∧ (∀ f n e,
       requested_page (delete "_" request) = Ok n →
       request !! "data" = None → request !! "self" = None →
       f kwargs (objects self) = Raise e →
       list_get f qs_order_by serialize self request = Raise e).
Proof.
  intros Hkwargs.
  assert (filter_kwargs (delete "_" request) = kwargs) as Heq.
  { apply map_eq. intros k. by rewrite filter_kwargs_spec, Hkwargs. }
  assert (∀ f, filter_data f (objects self) kwargs
               = if bool_decide (is_Some (request !! "self"))
                    || bool_decide (is_Some (request !! "data"))
                 then Raise TypeError else f kwargs (objects self)) as Hfilter.
  { intros f. unfold filter_data, adjust_filters.
    rewrite !Hkwargs.
    destruct (decide ("self" ∈ control_params)) as [Hin|_];
      [exfalso; revert Hin; unfold control_params; set_solver|].
    destruct (decide ("data" ∈ control_params)) as [Hin|_];
      [exfalso; revert Hin; unfold control_params; set_solver|].
    done. }
  split.
  - intros f1 f2 Hagree. rewrite !list_get_stages. cbv zeta.
    by rewrite Heq, !Hfilter, Hagree.
  - intros f n e Hpage Hdata Hself Hraise.
    rewrite list_get_stages. cbv zeta.
    rewrite Hpage, Heq, Hfilter, Hdata, Hself, Hraise. done.
Qed.

Lemma list_get_filter_parameters_witness :
  list_get demo_filter demo_order_by demo_serialize demo_endpoint
    {["status" := "active"; "page" := "1"; "_" := "7"]}
  = list_get demo_leaky_filter demo_order_by demo_serialize demo_endpoint
      {["status" := "active"; "page" := "1"; "_" := "7"]}
  ∧ list_get
      (λ kwargs data,
         if decide (kwargs = {["status" := "active"]})
         then Raise DoesNotExist else Ok data)
      demo_order_by demo_serialize demo_endpoint
      {["status" := "active"; "page" := "1"; "_" := "7"]}
    = Raise DoesNotExist.
Proof.
  destruct (list_get_filter_parameters demo_order_by demo_serialize
              demo_endpoint
              {["status" := "active"; "page" := "1"; "_" := "7"]}
              {["status" := "active"]}) as [Hagree Hraise].
  { intros k. rewrite <- filter_kwargs_spec. f_equal. }
  split.
  - apply Hagree. vm_compute. reflexivity.
  - apply (Hraise _ 1%Z); vm_compute; reflexivity.
Defined.

(** X16. A request parameter called [data] or [self] cannot be passed on
    as a keyword to [filter(self, data, **kwargs)]: once the page number
    is read, the list view ends in a [TypeError] before the data source
    is filtered. *)
Theorem list_get_parameter_clash {Row J : Type}
    (qs_filter : params → list Row → outcome (list Row))
    (qs_order_by : list string → list Row → outcome (list Row))
    (serialize : Row → dict → outcome J)
    (self : endpoint) (request : params) (n : Z) :
  requested_page (delete "_" request) = Ok n →
  is_Some (request !! "data") ∨ is_Some (request !! "self") →
  list_get qs_filter qs_order_by serialize self request = Raise TypeError.
Proof.
  intros Hpage Hclash. rewrite list_get_stages. cbv zeta.
  rewrite Hpage. simpl. unfold filter_data.
  assert (∀ k, k ∈ ["data"; "self"] → k ∉ control_params) as Hk.
  { intros k [->|[->|[]%elem_of_nil]%elem_of_cons]%elem_of_cons;
      unfold control_params; rewrite !not_elem_of_cons;
      repeat split; try done; apply not_elem_of_nil. }
  rewrite !filter_kwargs_lookup by (apply Hk; set_solver).
  destruct Hclash as [Hd|Hs].
  - rewrite (bool_decide_eq_true_2 _ Hd), orb_true_r. done.
  - rewrite (bool_decide_eq_true_2 _ Hs). done.
Qed.

Lemma list_get_parameter_clash_witness :
  list_get demo_filter demo_order_by demo_serialize demo_endpoint
    {["data" := "1"]}
  = Raise TypeError.
Proof.
  apply (list_get_parameter_clash _ _ _ _ _ 1); [reflexivity|].
  left. by eexists.
Defined.

(** X17. A successful response of the list view is consistent: [results]
    has as many entries as [meta.count] says, [meta.per_page] is the
    page size of the view, [meta.page] is the page that was requested,
    that is what [int] reads from the [page] parameter, and 1 when there
    is none, and the cross-origin header is ["*"]. *)
Theorem list_get_response {Row J : Type}
    (qs_filter : params → list Row → outcome (list Row))
    (qs_order_by : list string → list Row → outcome (list Row))
    (serialize : Row → dict → outcome J)
    (self : endpoint) (request : params)
    (response : http200 (list_body J)) :
  list_get qs_filter qs_order_by serialize self request = Ok response →
  length (body_results (body response))
  = meta_count (body_meta (body response))
  ∧ meta_per_page (body_meta (body response)) = per_page self
  ∧ requested_page (delete "_" request)
    = Ok (meta_page (body_meta (body response)))
  ∧ (∀ s, request !! "page" = Some s →
          py_int s = Some (meta_page (body_meta (body response))))
  ∧ (request !! "page" = None →
     meta_page (body_meta (body response)) = 1%Z)
  ∧ access_control_allow_origin response = "*".
Proof.
  rewrite list_get_stages. cbv zeta.
  destruct (requested_page _) as [n| |] eqn:Hpage; simpl; try done.
  destruct (filter_data _ _ _) as [d1| |]; simpl; try done.
  destruct (sort_data _ _ _) as [d2| |]; simpl; try done.
  destruct (paginate _ _ _) as [pg|[]|]; simpl; try done.
  destruct (get_fields _ _ _) as [[related config]|e|]; simpl; try done.
  destruct (serialize_all _ _ _ _) as [js| |] eqn:Hjs; simpl; try done.
  intros [= <-]. simpl.
  unfold requested_page in Hpage.
  rewrite (lookup_delete_ne _ "_" "page") in Hpage by done.
  split; [by eapply serialize_all_length|].
  split; [done|]. split; [done|].
  split; [|split; [|done]].
  - intros s Hs. rewrite Hs in Hpage.
    destruct (py_int s); [|done]. by injection Hpage as ->.
  - intros Hnone. rewrite Hnone in Hpage. by injection Hpage.
Qed.

Lemma list_get_response_witness :
  length ((λ x, (x, @nil string)) <$> seq 100 100) = 100
  ∧ 100 = per_page demo_list_endpoint
  ∧ requested_page (delete "_" {["page" := " 2"; "_" := "5"]}) = Ok 2%Z
  ∧ (∀ s, ({["page" := " 2"; "_" := "5"]} : params) !! "page" = Some s →
          py_int s = Some 2%Z)
  ∧ (({["page" := " 2"; "_" := "5"]} : params) !! "page" = None →
     2%Z = 1%Z)
  ∧ "*" = "*".
Proof.
  refine (list_get_response demo_filter demo_order_by demo_serialize
            demo_list_endpoint {["page" := " 2"; "_" := "5"]}
            (Http200
               (ListBody (Meta 100 2 100 200 250)
                  ((λ x, (x, [])) <$> seq 100 100))
               "*") _).
  vm_compute. reflexivity.
Defined.

Section ListDefaults.
Context {Row J : Type}.
Context (qs_filter : params → list Row → outcome (list Row)).
Context (qs_order_by : list string → list Row → outcome (list Row)).
Context (serialize : Row → dict → outcome J).

Lemma delete_insert_other (request : params) (k k' v : string) :
  k ≠ k' → delete k (<[k' := v]> request) !! k' = Some v.
Proof. intros Hne. by rewrite lookup_delete_ne, lookup_insert_eq. Qed.

Lemma filter_kwargs_insert_control (request : params) (k v : string) :
  k ∈ control_params →
  filter_kwargs (delete "_" (<[k := v]> request))
  = filter_kwargs (delete "_" request).
Proof.
  intros Hk. apply map_eq. intros j.
  destruct (decide (j ∈ control_params)) as [Hj|Hj].
  - by rewrite !filter_kwargs_control.
  - rewrite !filter_kwargs_lookup by done.
    apply lookup_insert_ne. intros ->. done.
Qed.

Lemma list_get_default_page (self : endpoint) (request : params) :
  request !! "page" = None →
  list_get qs_filter qs_order_by serialize self request
  = list_get qs_filter qs_order_by serialize self (<["page" := "1"]> request).
Proof.
  intros Hpage. rewrite !list_get_stages. cbv zeta.
  rewrite filter_kwargs_insert_control by (unfold control_params; set_solver).
  unfold requested_page, requested_sort, requested_fields.
  rewrite delete_insert_other by done.
  rewrite !(lookup_delete_ne _ "_") by done.
  rewrite !lookup_insert_ne by done. by rewrite Hpage.
Qed.

Lemma list_get_default_fields (self : endpoint) (request : params) :
  request !! "fields" = None →
  default_fields self ≠ [] →
  Forall (λ x, has_char "," x = false) (default_fields self) →
  list_get qs_filter qs_order_by serialize self request
  = list_get qs_filter qs_order_by serialize self
      (<["fields" := join_comma (default_fields self)]> request).
Proof.
  intros Hfields Hne Hall. rewrite !list_get_stages. cbv zeta.
  rewrite filter_kwargs_insert_control by (unfold control_params; set_solver).
  unfold requested_page, requested_sort, requested_fields.
  rewrite delete_insert_other by done.
  rewrite !(lookup_delete_ne _ "_") by done.
  rewrite !lookup_insert_ne by done. rewrite Hfields. simpl.
  by rewrite split_join_comma.
Qed.

Lemma list_get_fields_override (self self' : endpoint) (request : params) :
  is_Some (request !! "fields") →
  objects self = objects self' → per_page self = per_page self' →
  spec_store self = spec_store self' →
  serialize_config self = serialize_config self' →
  list_get qs_filter qs_order_by serialize self request
  = list_get qs_filter qs_order_by serialize self' request.
Proof.
  intros [s Hs] Hobj Hpp Hst Hcfg. rewrite !list_get_stages. cbv zeta.
  unfold requested_fields, paginate.
  rewrite (lookup_delete_ne _ "_" "fields"), Hs by done. simpl.
  by rewrite Hobj, Hpp, Hst, Hcfg.
Qed.

End ListDefaults.

(** X18. How the list view fills in what a request leaves out: without
    a [page] parameter it answers as for [page=1]; without a [fields]
    parameter it answers as if the default fields of the view had been
    spelled out, joined by commas (the defaults being a non-empty list of
    comma-free names); and with a [fields] parameter the default fields
    play no role. *)
Theorem list_get_defaults {Row J : Type}
    (qs_filter : params → list Row → outcome (list Row))
    (qs_order_by : list string → list Row → outcome (list Row))
    (serialize : Row → dict → outcome J)
    (self : endpoint) (request : params) :
  (request !! "page" = None →
   list_get qs_filter qs_order_by serialize self request
   = list_get qs_filter qs_order_by serialize self
       (<["page" := "1"]> request))
  ∧ (request !! "fields" = None →
     default_fields self ≠ [] →
     Forall (λ x, has_char "," x = false) (default_fields self) →
     list_get qs_filter qs_order_by serialize self request
     = list_get qs_filter qs_order_by serialize self
         (<["fields" := join_comma (default_fields self)]> request))
  ∧ (∀ self' : endpoint,
       is_Some (request !! "fields") →
       objects self = objects self' → per_page self = per_page self' →
       spec_store self = spec_store self' →
       serialize_config self = serialize_config self' →
       list_get qs_filter qs_order_by serialize self request
       = list_get qs_filter qs_order_by serialize self' request).
Proof.
  split; [apply list_get_default_page|].
  split; [apply list_get_default_fields|].
  intros self'. apply list_get_fields_override.
Qed.

Lemma list_get_defaults_witness :
  list_get demo_filter demo_order_by demo_serialize demo_endpoint ∅
  = list_get demo_filter demo_order_by demo_serialize demo_endpoint
      (<["page" := "1"]> ∅)
  ∧ list_get demo_filter demo_order_by demo_serialize demo_endpoint ∅
    = list_get demo_filter demo_order_by demo_serialize demo_endpoint
        (<["fields" := join_comma (default_fields demo_endpoint)]> ∅).
Proof.
  destruct (list_get_defaults demo_filter demo_order_by demo_serialize
              demo_endpoint ∅) as (Hpage & Hfields & _).
  split.
  - apply Hpage. reflexivity.
  - apply Hfields; [reflexivity|done|]. repeat constructor.
Defined.

(** ** The detail view *)

(** X19. The detail view looks at nothing in the request but the
    [fields] parameter: two requests that agree on it (whatever else
    they carry: [_], [page], [sort_by], filters) get the same answer. *)
Theorem detail_get_reads_fields_only {Row J : Type}
    (qs_get : string → list Row → outcome Row)
    (serialize : Row → dict → outcome J)
    (self : endpoint) (pk : string) (r1 r2 : params) :
  r1 !! "fields" = r2 !! "fields" →
  detail_get qs_get serialize self pk r1
  = detail_get qs_get serialize self pk r2.
Proof.
  intros Hf. unfold detail_get, cachebusterable, detail_get_raw, pop_param.
  by rewrite !(lookup_delete_ne _ "_" "fields"), Hf.
Qed.

Lemma detail_get_reads_fields_only_witness :
  detail_get demo_get demo_serialize demo_endpoint "1"
    {["fields" := "name"; "page" := "7"; "_" := "1"]}
  = detail_get demo_get demo_serialize demo_endpoint "1"
      {["fields" := "name"]}.
Proof.
  apply detail_get_reads_fields_only. reflexivity.
Defined.

(** X20. The detail view turns no failure into an HTTP error of its own:
    an exception of [get_fields] leaves it unchanged, before the object
    is even looked up, and unless the data source or the serializer
    raises an [HttpError], none comes out of the view. *)
Theorem detail_get_no_http_error {Row J : Type}
    (qs_get : string → list Row → outcome Row)
    (serialize : Row → dict → outcome J)
    (self : endpoint) (pk : string) (request : params) :
  (∀ e,
     get_fields (spec_store self) (serialize_config self)
       (requested_fields (default_fields self) (delete "_" request))
     = Raise e →
     detail_get qs_get serialize self pk request = Raise e)
  ∧ ((∀ data code msg, qs_get pk data ≠ Raise (HttpError code msg)) →
     (∀ x kwargs code msg, serialize x kwargs ≠ Raise (HttpError code msg)) →
     ∀ code msg,
       detail_get qs_get serialize self pk request
       ≠ Raise (HttpError code msg)).
Proof.
  unfold detail_get, cachebusterable, detail_get_raw, pop_param,
    requested_fields.
  split.
  - by intros e ->.
  - intros Hget Hser code msg.
    destruct (get_fields _ _ _) as [[related config]|e|] eqn:Hf; simpl.
    + destruct (qs_get pk _) as [x|e|] eqn:Hx; simpl.
      * unfold serialize_with.
        destruct (as_dict _ config) as [kwargs|]; [|done].
        destruct (serialize x kwargs) as [j|e|] eqn:Hj; simpl; try done.
        intros [= ->]. by eapply Hser.
      * intros [= ->]. by eapply Hget.
      * done.
    + intros [= ->]. by apply get_fields_explained in Hf.
    + done.
Qed.

Lemma detail_get_no_http_error_witness :
  detail_get demo_get demo_serialize demo_endpoint "9"
    {["fields" := "a.p.x"]}
  = Raise (KeyError "p")
  ∧ detail_get demo_get demo_serialize demo_endpoint "9" {["fields" := "a"]}
    ≠ Raise (HttpError 404 "Not found").
Proof.
  destruct (detail_get_no_http_error demo_get demo_serialize demo_endpoint
              "9" {["fields" := "a.p.x"]}) as [Hraise _].
  destruct (detail_get_no_http_error demo_get demo_serialize demo_endpoint
              "9" {["fields" := "a"]}) as [_ Hnone].
  split.
  - apply Hraise. vm_compute. reflexivity.
  - apply Hnone.
    + intros data code msg. unfold demo_get.
      destruct (py_int "9"); [|done]. by destruct (data !! _).
    + done.
Defined.

(** ** get_field_list *)

(** X21. [get_field_list] returns each field name of the model that is
    not excluded, once, and nothing else; leaving [without] out is the
    same as excluding nothing. *)
Theorem get_field_list_spec (field_names : list string)
    (without : list string) :
  NoDup (get_field_list field_names (Some without))
  ∧ (∀ x, x ∈ get_field_list field_names (Some without)
          ↔ x ∈ field_names ∧ x ∉ without)
  ∧ get_field_list field_names None = get_field_list field_names (Some []).
Proof.
  unfold get_field_list. split; [apply NoDup_elements|]. split; [|done].
  intros x. rewrite elem_of_elements, elem_of_difference.
  by rewrite !elem_of_list_to_set.
Qed.
